(** * rpi5-fast-irq: the shared ring buffer, its producer and its listener

    A shallow embedding of
    - [kernel_module/rpi_fast_irq.c] (the mapped, lock-free producer),
    - the earlier spinlock/[read()] producer of the same module,
    - [RpiFastIrq.cpp] / [RpiFastIrq.hpp] (the user-space listener, in its
      mapped and its [read()] variants),
    - [Basic_usage/main.cpp] ([LockFreeRingBuffer]).

    Unsigned C integers are values of [Z] with the wrap-around written out;
    arrays are lists read and updated by index; the operating system is a
    trace of the calls the code makes. *)

From Stdlib Require Import ZArith Lia.
From stdpp Require Import base list strings pretty.

Local Open Scope Z_scope.

(* ===================================================================== *)
(** * Definitions *)
(* ===================================================================== *)

(** ** Fixed-width arithmetic *)

Definition wrap32 (n : Z) : Z := n mod 2 ^ 32.
Definition wrap64 (n : Z) : Z := n mod 2 ^ 64.

Definition is_u32 (n : Z) : Prop := 0 <= n < 2 ^ 32.
Definition is_u64 (n : Z) : Prop := 0 <= n < 2 ^ 64.

(** ** The event record and the mapped region ([RpiFastIrq.hpp]) *)

Record GpioIrqEvent : Type := mkEvent {
  timestamp_ns : Z;   (* uint64_t *)
  event_counter : Z;  (* uint32_t *)
  pin_state : Z       (* uint32_t *)
}.

(** [vmalloc_user] hands out zeroed pages: a slot nobody wrote reads as 0. *)
Definition zero_event : GpioIrqEvent := mkEvent 0 0 0.

#[global] Instance GpioIrqEvent_inhabited : Inhabited GpioIrqEvent :=
  populate zero_event.

Definition KBUF_SIZE : Z := 256.

Record SharedRingBuffer : Type := mkShared {
  head : Z;                      (* uint32_t, written by the ISR *)
  tail : Z;                      (* uint32_t, written by the listener *)
  events : list GpioIrqEvent     (* GpioIrqEvent events[KBUF_SIZE] *)
}.

Definition set_head (sb : SharedRingBuffer) (h : Z) : SharedRingBuffer :=
  mkShared h (tail sb) (events sb).
Definition set_tail (sb : SharedRingBuffer) (t : Z) : SharedRingBuffer :=
  mkShared (head sb) t (events sb).
Definition set_events (sb : SharedRingBuffer) (es : list GpioIrqEvent)
  : SharedRingBuffer :=
  mkShared (head sb) (tail sb) es.

(** [events[count % KBUF_SIZE]] as an rvalue *)
Definition slot (sb : SharedRingBuffer) (count : Z) : GpioIrqEvent :=
  events sb !!! Z.to_nat (count mod KBUF_SIZE).

(** [events[count % KBUF_SIZE] = e] *)
Definition store_slot (sb : SharedRingBuffer) (count : Z) (e : GpioIrqEvent)
  : SharedRingBuffer :=
  set_events sb (<[Z.to_nat (count mod KBUF_SIZE) := e]> (events sb)).

Definition shared_wf (sb : SharedRingBuffer) : Prop :=
  is_u32 (head sb) /\ is_u32 (tail sb) /\
  length (events sb) = Z.to_nat KBUF_SIZE.

(** ** The user callback

    [IrqCallback] is a [std::function<void(const GpioIrqEvent&)>]: it may be
    empty, and when it has a target the target acts on state of the
    application, of some type [U]. *)

Definition IrqCallback (U : Type) : Type := option (GpioIrqEvent -> U -> U).

(** [if (m_callback) { m_callback(event_data); }] *)
Definition dispatch {U} (m_callback : IrqCallback U) (event_data : GpioIrqEvent)
    (u : U) : U :=
  match m_callback with
  | Some f => f event_data u
  | None => u
  end.

(** A callback that appends what it is given to a log. *)
Definition record_cb : GpioIrqEvent -> list GpioIrqEvent -> list GpioIrqEvent :=
  fun e log => log ++ [e].

(** ** The mapped listener: the drain of [listener_thread_func]

    [while (local_tail != current_head) { ...; local_tail++; }].  The fuel
    bounds the number of iterations; [None] means it ran out. *)

Fixpoint drain_loop {U} (fuel : nat) (m_callback : IrqCallback U)
    (sb : SharedRingBuffer) (current_head local_tail : Z) (u : U)
  : option (Z * U) :=
  if local_tail =? current_head then Some (local_tail, u)
  else
    match fuel with
    | O => None
    | S fuel' =>
        let event_data := slot sb local_tail in
        let u' := dispatch m_callback event_data u in
        drain_loop fuel' m_callback sb current_head (wrap32 (local_tail + 1)) u'
    end.

(** The body of [if (pfd.revents & POLLIN)]: load [head], drain, store
    [tail].  Returns the region, the thread's [local_tail] and the
    application state. *)
Definition drain_pass {U} (fuel : nat) (m_callback : IrqCallback U)
    (sb : SharedRingBuffer) (local_tail : Z) (u : U)
  : option (SharedRingBuffer * Z * U) :=
  let current_head := head sb in
  match drain_loop fuel m_callback sb current_head local_tail u with
  | Some (local_tail', u') => Some (set_tail sb local_tail', local_tail', u')
  | None => None
  end.

(** The counts a pass walks through: [T, T+1, ...], [n] of them, as
    [uint32_t]. *)
Definition counts (T : Z) (n : nat) : list Z :=
  (fun i => wrap32 (T + Z.of_nat i)) <$> seq 0 n.

(** The number of records between a tail and a head, [H - T] as [uint32_t]. *)
Definition available (H T : Z) : nat := Z.to_nat (wrap32 (H - T)).

(** The callback applied to each event of a list, first to last. *)
Definition feed {U} (m_callback : IrqCallback U) (es : list GpioIrqEvent)
    (u : U) : U :=
  fold_left (fun u e => dispatch m_callback e u) es u.

(** What a pass does to the application state: the callback applied to the
    slot of each count, in the order of the list. *)
Definition deliver {U} (m_callback : IrqCallback U) (sb : SharedRingBuffer)
    (cs : list Z) (u : U) : U :=
  feed m_callback (slot sb <$> cs) u.

(** ** The mapped, lock-free producer ([kernel_module/rpi_fast_irq.c]) *)

Definition POLLIN : Z := 1.        (* <poll.h> *)
Definition POLLRDNORM : Z := 64.   (* <poll.h> *)
Definition EINTR : Z := 4.         (* <errno.h> *)
Definition EFAULT : Z := 14.
Definition EINVAL : Z := 22.

Module Mapped.

Record kernel : Type := mkKernel {
  shared_buf : SharedRingBuffer;   (* static struct SharedRingBuffer *shared_buf *)
  total_interrupts : Z             (* static u32 total_interrupts *)
}.

(** [rpi_fast_irq_init]: the region is allocated zeroed and both cursors
    are set to 0. *)
Definition rpi_fast_irq_init : kernel :=
  mkKernel (mkShared 0 0 (replicate (Z.to_nat KBUF_SIZE) zero_event)) 0.

(** [gpio_isr].  [ts] is what [ktime_get_ns()] returned and [state] the
    level [gpio_get_value(GPIO_PIN)] returned (an [int], stored into a
    [u32]).  The three member stores to [events[current_head % KBUF_SIZE]]
    assign every member of the slot. *)
Definition gpio_isr (ts state : Z) (k : kernel) : kernel :=
  let total := wrap32 (total_interrupts k + 1) in
  let current_head := head (shared_buf k) in
  let sb1 :=
    store_slot (shared_buf k) current_head (mkEvent ts total (wrap32 state)) in
  (* smp_store_release(&shared_buf->head, current_head + 1) *)
  mkKernel (set_head sb1 (wrap32 (current_head + 1))) total.

(** [dev_poll]: readable when [head != tail]. *)
Definition dev_poll (k : kernel) : Z :=
  if head (shared_buf k) =? tail (shared_buf k) then 0
  else Z.lor POLLIN POLLRDNORM.

(** The interrupt handler run once per input, oldest first. *)
Definition publish_all (inputs : list (Z * Z)) (k : kernel) : kernel :=
  fold_left (fun k i => gpio_isr i.1 i.2 k) inputs k.

(** The record the [i]-th interrupt after a state with counter [total0]
    writes. *)
Definition published (total0 : Z) (i : nat) (input : Z * Z) : GpioIrqEvent :=
  mkEvent input.1 (wrap32 (total0 + Z.of_nat i + 1)) (wrap32 input.2).

Definition published_all (total0 : Z) (inputs : list (Z * Z))
  : list GpioIrqEvent :=
  imap (published total0) inputs.

End Mapped.

(** ** The listener thread of the mapped variant ([listener_thread_func]) *)

Record poll_outcome : Type := mkPoll {
  ret : Z;        (* what poll() returned *)
  errno : Z;      (* errno after the call *)
  revents : Z     (* pfd.revents *)
}.

Inductive loop_ctl : Type := Continue | Break.

(** The escape character and the line feed of the diagnostics. *)
Definition ESC : string := String (Ascii.ascii_of_nat 27) EmptyString.
Definition NL : string := String (Ascii.ascii_of_nat 10) EmptyString.

Section ListenerThread.
Context {U : Type}.

Record thread : Type := mkThread {
  shm : SharedRingBuffer;     (* *m_shared_buf, the region the kernel maps *)
  local_tail : Z;             (* uint32_t local_tail *)
  user : U;                   (* what the callback acts on *)
  thread_err : list string    (* lines written to std::cerr *)
}.

Definition msg_sched_warning : string :=
  ESC +:+ "[33m[RpiFastIrq] Warning: Failed to set SCHED_FIFO priority. Requires root privileges."
      +:+ ESC +:+ "[0m" +:+ NL.
Definition msg_poll_error (why : string) : string :=
  ESC +:+ "[31m[RpiFastIrq] poll() error: " +:+ why +:+ ESC +:+ "[0m" +:+ NL.

(** The prologue of the thread, version 2.0.0: after the attempt to raise
    the priority, [local_tail] is loaded from [head] and stored to
    [tail]. *)
Definition listener_thread_entry (sched_ok : bool) (sb : SharedRingBuffer)
    (u : U) : thread :=
  let err := if sched_ok then [] else [msg_sched_warning] in
  let local_tail := head sb in
  mkThread (set_tail sb local_tail) local_tail u err.

(** One turn of [while (m_running)], after [poll] returned [p]. *)
Definition listener_thread_iter (fuel : nat) (m_callback : IrqCallback U)
    (strerror : Z -> string) (p : poll_outcome) (t : thread)
  : option (loop_ctl * thread) :=
  if ret p <? 0 then
    if errno p =? EINTR then Some (Continue, t)
    else Some (Break,
               mkThread (shm t) (local_tail t) (user t)
                 (thread_err t ++ [msg_poll_error (strerror (errno p))]))
  else if 0 <? ret p then
    if Z.land (revents p) POLLIN =? 0 then Some (Continue, t)
    else
      match drain_pass fuel m_callback (shm t) (local_tail t) (user t) with
      | Some (sb', local_tail', u') =>
          Some (Continue, mkThread sb' local_tail' u' (thread_err t))
      | None => None
      end
  else Some (Continue, t).

End ListenerThread.
Arguments thread : clear implicits.

(** ** Producer and consumer of the mapped variant as one system

    The kernel and the listener thread work on the same region: the system
    holds it once, inside the kernel state, and the thread keeps only its
    [local_tail] and the application state. *)

Section MappedSystem.
Context {U : Type}.

Record system : Type := mkSystem {
  sys_kernel : Mapped.kernel;
  sys_local_tail : Z;
  sys_user : U
}.

Inductive action : Type :=
| Interrupt (ts state : Z)     (* producer: one run of gpio_isr *)
| Resync                       (* consumer: the prologue of the thread *)
| Drain (fuel : nat).          (* consumer: one drain pass *)

Definition is_producer (a : action) : bool :=
  match a with Interrupt _ _ => true | _ => false end.
Definition is_consumer (a : action) : bool := negb (is_producer a).

Definition with_region (s : system) (sb : SharedRingBuffer) : Mapped.kernel :=
  Mapped.mkKernel sb (Mapped.total_interrupts (sys_kernel s)).

Definition sys_step (m_callback : IrqCallback U) (a : action) (s : system)
  : option system :=
  match a with
  | Interrupt ts state =>
      Some (mkSystem (Mapped.gpio_isr ts state (sys_kernel s))
              (sys_local_tail s) (sys_user s))
  | Resync =>
      let t := listener_thread_entry true
                 (Mapped.shared_buf (sys_kernel s)) (sys_user s) in
      Some (mkSystem (with_region s (shm t)) (local_tail t) (user t))
  | Drain fuel =>
      match drain_pass fuel m_callback (Mapped.shared_buf (sys_kernel s))
              (sys_local_tail s) (sys_user s) with
      | Some (sb', local_tail', u') =>
          Some (mkSystem (with_region s sb') local_tail' u')
      | None => None
      end
  end.

Definition sys_head (s : system) : Z := head (Mapped.shared_buf (sys_kernel s)).
Definition sys_tail (s : system) : Z := tail (Mapped.shared_buf (sys_kernel s)).

End MappedSystem.
Arguments system : clear implicits.

(** ** The spinlock producer with [read()] (module version 1.0)

    [k_buffer], [k_head] and [k_tail] are guarded by [event_lock]; the
    cursors are indices, reduced modulo [KBUF_SIZE] at every step. *)

Module Spinlock.

Record kernel : Type := mkKernel {
  k_buffer : list GpioIrqEvent;  (* static struct GpioIrqEvent k_buffer[KBUF_SIZE] *)
  k_head : Z;                    (* static unsigned int k_head *)
  k_tail : Z;                    (* static unsigned int k_tail *)
  total_interrupts : Z           (* static u32 total_interrupts *)
}.

Definition module_init : kernel :=
  mkKernel (replicate (Z.to_nat KBUF_SIZE) zero_event) 0 0 0.

(** [gpio_isr], the body between [spin_lock_irqsave] and
    [spin_unlock_irqrestore]. *)
Definition gpio_isr (ts state : Z) (k : kernel) : kernel :=
  let total := wrap32 (total_interrupts k + 1) in
  let buf := <[Z.to_nat (k_head k) := mkEvent ts total (wrap32 state)]>
               (k_buffer k) in
  let new_head := wrap32 (k_head k + 1) mod KBUF_SIZE in
  let new_tail :=
    if new_head =? k_tail k then wrap32 (k_tail k + 1) mod KBUF_SIZE
    else k_tail k in
  mkKernel buf new_head new_tail total.

Definition sizeof_GpioIrqEvent : Z := 16.

(** [dev_read], once [wait_event_interruptible] has returned.  The result
    is the value returned to the caller, the bytes copied out (when the
    copy succeeded) and the kernel state. *)
Definition dev_read (len : Z) (copy_ok : bool) (k : kernel)
  : Z * option GpioIrqEvent * kernel :=
  if len <? sizeof_GpioIrqEvent then (- EINVAL, None, k)
  else
    let local_event := k_buffer k !!! Z.to_nat (k_tail k) in
    let k' := mkKernel (k_buffer k) (k_head k)
                (wrap32 (k_tail k + 1) mod KBUF_SIZE) (total_interrupts k) in
    if copy_ok then (sizeof_GpioIrqEvent, Some local_event, k')
    else (- EFAULT, None, k').

Definition dev_poll (k : kernel) : Z :=
  if k_head k =? k_tail k then 0 else Z.lor POLLIN POLLRDNORM.

(** The interrupt handler run [n] times with the same inputs. *)
Definition interrupts (n : nat) (ts state : Z) (k : kernel) : kernel :=
  Nat.iter n (gpio_isr ts state) k.

Inductive reachable : kernel -> Prop :=
| reach_init : reachable module_init
| reach_isr ts state k : reachable k -> reachable (gpio_isr ts state k)
| reach_read len ok k : reachable k -> reachable (dev_read len ok k).2.

End Spinlock.

(** The listener of the [read()] variant ([Benchmark/RpiFastIrq.cpp]): the
    body of [if (pfd.revents & POLLIN)].  [bytes_read] is what [read]
    returned in user space: the driver's value, or -1 for a driver error. *)
Section ReadListener.
Context {U : Type}.

Definition msg_partial_read (got : Z) : string :=
  "[RpiFastIrq] Partial read occurred. Expected "
    +:+ pretty Spinlock.sizeof_GpioIrqEvent +:+ " bytes, got " +:+ pretty got
    +:+ NL.
Definition msg_read_failed (why : string) : string :=
  "[RpiFastIrq] Read failed: " +:+ why +:+ NL.

Definition read_pass (m_callback : IrqCallback U) (strerror : Z -> string)
    (copy_ok : bool) (k : Spinlock.kernel) (u : U) (err : list string)
  : Spinlock.kernel * U * list string :=
  let '(r, data, k') :=
    Spinlock.dev_read Spinlock.sizeof_GpioIrqEvent copy_ok k in
  let bytes_read := if r <? 0 then -1 else r in
  if bytes_read =? Spinlock.sizeof_GpioIrqEvent then
    match data with
    | Some event_data => (k', dispatch m_callback event_data u, err)
    | None => (k', u, err)
    end
  else if 0 <? bytes_read then (k', u, err ++ [msg_partial_read bytes_read])
  else (k', u, err ++ [msg_read_failed (strerror (- r))]).

End ReadListener.

(** ** The declarations of the shared structures

    A structure is the list of its members in declaration order; the
    compiler places each member at the next offset that is a multiple of its
    alignment and pads the structure to a multiple of its own (the rule of
    the AArch64 and x86-64 ABIs, for C and for C++ standard-layout
    structures alike). *)

Module Wire.

Record member : Type := mkMember {
  m_name : string;
  m_width : Z;     (* bytes *)
  m_align : Z
}.

Definition struct_decl : Type := list member.

Definition align_up (off a : Z) : Z := (off + a - 1) / a * a.

Definition alignof (s : struct_decl) : Z :=
  fold_right (fun m a => Z.max (m_align m) a) 1 s.

(** The members with their offsets, and the offset after the last one. *)
Fixpoint place (off : Z) (s : struct_decl) : list (string * (Z * Z)) * Z :=
  match s with
  | [] => ([], off)
  | m :: rest =>
      let o := align_up off (m_align m) in
      let '(placed, stop) := place (o + m_width m) rest in
      ((m_name m, (o, m_width m)) :: placed, stop)
  end.

(** name, (offset, width) *)
Definition layout (s : struct_decl) : list (string * (Z * Z)) := (place 0 s).1.

Definition sizeof (s : struct_decl) : Z :=
  align_up (place 0 s).2 (alignof s).

Fixpoint offset_of (name : string) (l : list (string * (Z * Z)))
  : option (Z * Z) :=
  match l with
  | [] => None
  | (n, ow) :: rest => if String.eqb n name then Some ow else offset_of name rest
  end.

(** Bytes of the structure that belong to no member. *)
Definition padding (s : struct_decl) : Z :=
  sizeof s - fold_right (fun m a => m_width m + a) 0 s.

Definition u32 (name : string) : member := mkMember name 4 4.
Definition u64 (name : string) : member := mkMember name 8 8.
Definition array (name : string) (elt : struct_decl) (n : Z) : member :=
  mkMember name (n * sizeof elt) (alignof elt).

(** [kernel_module/rpi_fast_irq.c], module version 2.0: the member
    [pin_state] is commented out. *)
Definition kernel_GpioIrqEvent : struct_decl :=
  [u64 "timestamp_ns"; u32 "event_counter"].
Definition kernel_SharedRingBuffer : struct_decl :=
  [u32 "head"; u32 "tail"; array "events" kernel_GpioIrqEvent KBUF_SIZE].

(** The mapped module before that change. *)
Definition kernel_prev_GpioIrqEvent : struct_decl :=
  [u64 "timestamp_ns"; u32 "event_counter"; u32 "pin_state"].
Definition kernel_prev_SharedRingBuffer : struct_decl :=
  [u32 "head"; u32 "tail"; array "events" kernel_prev_GpioIrqEvent KBUF_SIZE].

(** [CountsPerSecond/RpiFastIrq.hpp] *)
Definition cpp_GpioIrqEvent : struct_decl :=
  [u64 "timestamp_ns"; u32 "event_counter"; u32 "pin_state"].
Definition cpp_SharedRingBuffer : struct_decl :=
  [u32 "head"; u32 "tail"; array "events" cpp_GpioIrqEvent KBUF_SIZE].

(** [CountsPerSecond_Plot/RpiFastIrq.hpp]: the member [events] is
    commented out. *)
Definition plot_GpioIrqEvent : struct_decl := cpp_GpioIrqEvent.
Definition plot_SharedRingBuffer : struct_decl :=
  [u32 "head"; u32 "tail"].

(** Two declarations agree when they place the same members at the same
    offsets with the same widths, and have the same size and padding. *)
Definition same_layout (a b : struct_decl) : Prop :=
  layout a = layout b /\ sizeof a = sizeof b /\ padding a = padding b.

End Wire.

(** ** The listener object: [start], [stop] and the destructor

    The operating system is a trace of the calls the listener makes, oldest
    first; what the process holds is computed from the trace. *)

Inductive region_ptr : Type :=
| nullptr
| MAP_FAILED
| mapped_at (addr : Z).

(** A [std::thread] member: joinable or not. *)
Inductive thread_handle : Type := not_joinable | joinable.

Inductive effect : Type :=
| SysOpen (path : string) (flags : Z) (result : Z)
| SysMmap (len fd : Z) (result : region_ptr)
| SysMunmap (p : region_ptr) (len : Z)
| SysClose (fd : Z)
| ThreadSpawn
| ThreadJoin
| Cerr (line : string).

Definition world : Type := list effect.

#[global] Instance region_ptr_eq_dec : EqDecision region_ptr.
Proof. solve_decision. Defined.

Record resources : Type := mkResources {
  fds : list Z;              (* descriptors open, newest first *)
  maps : list region_ptr;    (* regions mapped *)
  threads : nat;             (* threads spawned and not joined *)
  faults : nat               (* releases of something not held *)
}.

Definition no_resources : resources := mkResources [] [] 0 0.

Definition is_mapped (p : region_ptr) : bool :=
  match p with mapped_at _ => true | _ => false end.

Definition apply_effect (r : resources) (e : effect) : resources :=
  match e with
  | SysOpen _ _ fd =>
      if 0 <=? fd then mkResources (fd :: fds r) (maps r) (threads r) (faults r)
      else r
  | SysMmap _ _ p =>
      if is_mapped p then mkResources (fds r) (p :: maps r) (threads r) (faults r)
      else r
  | SysMunmap p _ =>
      if bool_decide (p ∈ maps r)
      then mkResources (fds r) (list_difference (maps r) [p]) (threads r) (faults r)
      else mkResources (fds r) (maps r) (threads r) (S (faults r))
  | SysClose fd =>
      if bool_decide (fd ∈ fds r)
      then mkResources (list_difference (fds r) [fd]) (maps r) (threads r) (faults r)
      else mkResources (fds r) (maps r) (threads r) (S (faults r))
  | ThreadSpawn => mkResources (fds r) (maps r) (S (threads r)) (faults r)
  | ThreadJoin =>
      match threads r with
      | O => mkResources (fds r) (maps r) O (S (faults r))
      | S n => mkResources (fds r) (maps r) n (faults r)
      end
  | Cerr _ => r
  end.

Definition held (w : world) : resources := fold_left apply_effect w no_resources.

Definition is_close (fd : Z) (e : effect) : bool :=
  match e with SysClose fd' => fd' =? fd | _ => false end.
Definition is_munmap (p : region_ptr) (e : effect) : bool :=
  match e with SysMunmap q _ => bool_decide (q = p) | _ => false end.
Definition is_join (e : effect) : bool :=
  match e with ThreadJoin => true | _ => false end.

(** How often a trace closes a descriptor, unmaps a region, joins. *)
Definition closes (fd : Z) (w : world) : nat := length (List.filter (is_close fd) w).
Definition unmaps (p : region_ptr) (w : world) : nat :=
  length (List.filter (is_munmap p) w).
Definition joins (w : world) : nat := length (List.filter is_join w).

(** The two listeners with a mapped region: [RpiFastIrq.cpp] version 2.0.0
    and the one in [CountsPerSecond_Plot]. *)
Inductive variant : Type := V2 | Plot.

Definition O_RDONLY : Z := 0.   (* <fcntl.h> *)
Definition O_RDWR : Z := 2.

Definition open_flags (v : variant) : Z :=
  match v with V2 => O_RDWR | Plot => O_RDONLY end.

(** Version 2.0.0 wraps its error lines in an ANSI colour. *)
Definition red (v : variant) (line : string) : string :=
  match v with
  | V2 => ESC +:+ "[31m" +:+ line +:+ ESC +:+ "[0m" +:+ NL
  | Plot => line +:+ NL
  end.

Definition msg_already_running : string :=
  "[RpiFastIrq] Already running." +:+ NL.
Definition msg_open_failed (v : variant) (path why : string) : string :=
  red v ("[RpiFastIrq] Failed to open device: " +:+ path +:+ " Error: " +:+ why).
Definition msg_mmap_failed (v : variant) (why : string) : string :=
  red v ("[RpiFastIrq] mmap failed: " +:+ why).

(** [sizeof(SharedRingBuffer)] with the [events] member, as the code that
    indexes [m_shared_buf->events] needs it. *)
Definition sizeof_SharedRingBuffer : Z := Wire.sizeof Wire.cpp_SharedRingBuffer.

(** [(size + page_size - 1) & ~(page_size - 1)] in [size_t]. *)
Definition page_round_up (size page_size : Z) : Z :=
  wrap64 (Z.land (size + page_size - 1) (Z.lnot (page_size - 1))).

(** What the operating system answers during one call of [start]. *)
Record start_env : Type := mkEnv {
  open_result : Z;             (* ::open: a descriptor, or -1 *)
  open_errno : Z;
  page_size : Z;               (* ::sysconf(_SC_PAGESIZE) *)
  mmap_result : region_ptr;    (* ::mmap: an address, or MAP_FAILED *)
  mmap_errno : Z;
  strerror : Z -> string
}.

(** POSIX: a failed [open] returns -1, [mmap] never returns a null
    pointer. *)
Definition posix (env : start_env) : Prop :=
  (open_result env < 0 -> open_result env = -1) /\ mmap_result env <> nullptr.

Section Listener.
Context {U : Type}.

Record RpiFastIrq : Type := mkListener {
  m_device_path : string;
  m_fd : Z;
  m_shared_buf : region_ptr;
  m_mmap_size : Z;
  m_running : bool;
  m_callback : IrqCallback U;
  m_listener_thread : thread_handle
}.

(** The constructor. *)
Definition RpiFastIrq_new (device_path : string) : RpiFastIrq :=
  mkListener device_path (-1) nullptr 0 false None not_joinable.

Definition start (v : variant) (env : start_env)
    (user_callback : IrqCallback U) (l : RpiFastIrq) (w : world)
  : bool * RpiFastIrq * world :=
  if m_running l then (false, l, w ++ [Cerr msg_already_running])
  else
    let fd := open_result env in
    let w1 := w ++ [SysOpen (m_device_path l) (open_flags v) fd] in
    let l1 := mkListener (m_device_path l) fd (m_shared_buf l) (m_mmap_size l)
                (m_running l) (m_callback l) (m_listener_thread l) in
    if fd <? 0 then
      (false, l1,
       w1 ++ [Cerr (msg_open_failed v (m_device_path l)
                      (strerror env (open_errno env)))])
    else
      let size := page_round_up sizeof_SharedRingBuffer (page_size env) in
      let p := mmap_result env in
      let w2 := w1 ++ [SysMmap size fd p] in
      if bool_decide (p = MAP_FAILED) then
        (false,
         mkListener (m_device_path l) (-1) p size
           (m_running l) (m_callback l) (m_listener_thread l),
         w2 ++ [Cerr (msg_mmap_failed v (strerror env (mmap_errno env)));
                SysClose fd])
      else
        (true,
         mkListener (m_device_path l) fd p size true user_callback joinable,
         w2 ++ [ThreadSpawn]).

Definition stop (l : RpiFastIrq) (w : world) : RpiFastIrq * world :=
  if negb (m_running l) then (l, w)
  else
    (* m_running = false; join *)
    let '(th, w1) :=
      match m_listener_thread l with
      | joinable => (not_joinable, w ++ [ThreadJoin])
      | not_joinable => (not_joinable, w)
      end in
    (* m_shared_buf != nullptr && m_shared_buf != MAP_FAILED *)
    let '(p, w2) :=
      match m_shared_buf l with
      | mapped_at a => (nullptr, w1 ++ [SysMunmap (mapped_at a) (m_mmap_size l)])
      | q => (q, w1)
      end in
    let '(fd, w3) :=
      if 0 <=? m_fd l then (-1, w2 ++ [SysClose (m_fd l)])
      else (m_fd l, w2) in
    (mkListener (m_device_path l) fd p (m_mmap_size l) false
       (m_callback l) th, w3).

(** [~RpiFastIrq() { stop(); }] *)
Definition destroy (l : RpiFastIrq) (w : world) : RpiFastIrq * world :=
  stop l w.

(** A listener holds nothing. *)
Definition idle (l : RpiFastIrq) : Prop :=
  m_running l = false /\ m_fd l = -1 /\ is_mapped (m_shared_buf l) = false /\
  m_listener_thread l = not_joinable.

(** What a listener holds in each of its two states. *)
Definition lifecycle_inv (l : RpiFastIrq) (w : world) : Prop :=
  if m_running l then
    0 <= m_fd l /\ is_mapped (m_shared_buf l) = true /\
    m_listener_thread l = joinable /\
    held w = mkResources [m_fd l] [m_shared_buf l] 1 0
  else idle l /\ held w = no_resources.

(** The states a program can bring a listener to. *)
Inductive reachable (v : variant) : RpiFastIrq * world -> Prop :=
| reach_new path : reachable v (RpiFastIrq_new path, [])
| reach_start env cb l w :
    reachable v (l, w) -> posix env ->
    reachable v ((start v env cb l w).1.2, (start v env cb l w).2)
| reach_stop l w :
    reachable v (l, w) -> reachable v (stop l w).

End Listener.
Arguments RpiFastIrq : clear implicits.

(** ** The queue behind the callback ([Basic_usage/main.cpp])

    [LockFreeRingBuffer<T, Size>]: [m_head] and [m_tail] are [size_t]
    counters. *)

Section LockFreeRingBuffer.
Context {T : Type} `{Inhabited T}.
Variable Size : Z.

Record LockFreeRingBuffer : Type := mkQueue {
  m_data : list T;   (* T m_data[Size] *)
  m_head : Z;        (* std::atomic<size_t> m_head{0} *)
  m_tail : Z         (* std::atomic<size_t> m_tail{0} *)
}.

Definition queue_new : LockFreeRingBuffer :=
  mkQueue (replicate (Z.to_nat Size) inhabitant) 0 0.

Definition push (item : T) (q : LockFreeRingBuffer)
  : bool * LockFreeRingBuffer :=
  let current_head := m_head q in
  if Size <=? wrap64 (current_head - m_tail q) then (false, q)
  else
    (true,
     mkQueue (<[Z.to_nat (current_head mod Size) := item]> (m_data q))
       (wrap64 (current_head + 1)) (m_tail q)).

(** [item] is the caller's variable: the result carries its value after
    the call. *)
Definition pop (item : T) (q : LockFreeRingBuffer)
  : bool * T * LockFreeRingBuffer :=
  let current_tail := m_tail q in
  if current_tail =? m_head q then (false, item, q)
  else
    (true, m_data q !!! Z.to_nat (current_tail mod Size),
     mkQueue (m_data q) (m_head q) (wrap64 (current_tail + 1))).

Definition queue_wf (q : LockFreeRingBuffer) : Prop :=
  is_u64 (m_head q) /\ is_u64 (m_tail q) /\ length (m_data q) = Z.to_nat Size.

End LockFreeRingBuffer.
Arguments LockFreeRingBuffer : clear implicits.

(** [my_irq_callback]: push, and drop the event when the queue is full.
    [g_event_buffer] has 1024 slots. *)
Definition g_event_buffer_size : Z := 1024.

Definition my_irq_callback (event : GpioIrqEvent)
    (g_event_buffer : LockFreeRingBuffer GpioIrqEvent)
  : LockFreeRingBuffer GpioIrqEvent :=
  (push g_event_buffer_size event g_event_buffer).2.

(** ** Concrete runs *)

(** Ten interrupts: timestamp and pin level of each. *)
Definition ten_inputs : list (Z * Z) :=
  [(1000, 1); (2000, 1); (3500, 0); (4000, 1); (5200, 1);
   (6000, 0); (7100, 1); (8000, 1); (9900, 0); (10000, 1)].

(** The region after the module was loaded and ten interrupts arrived. *)
Definition ten_published : Mapped.kernel :=
  Mapped.publish_all ten_inputs Mapped.rpi_fast_irq_init.

(** A kernel whose counters are three short of 2^32, and five interrupts. *)
Definition near_wrap : Mapped.kernel :=
  Mapped.mkKernel
    (mkShared 4294967293 4294967293 (replicate (Z.to_nat KBUF_SIZE) zero_event))
    4294967293.

Definition five_inputs : list (Z * Z) :=
  [(10, 1); (20, 1); (30, 0); (40, 1); (50, 1)].

(** What the operating system may answer to [start]: no device node, a
    mapping that is refused, and a successful attach. *)
Definition example_strerror (e : Z) : string :=
  if e =? 2 then "No such file or directory"
  else if e =? 13 then "Permission denied"
  else "Unknown error".

Definition env_no_device : start_env :=
  mkEnv (-1) 2 4096 MAP_FAILED 0 example_strerror.
Definition env_mmap_refused : start_env :=
  mkEnv 3 0 4096 MAP_FAILED 13 example_strerror.
Definition env_attached : start_env :=
  mkEnv 3 0 4096 (mapped_at 281474976710656) 0 example_strerror.

Definition fresh_listener : RpiFastIrq (list GpioIrqEvent) :=
  RpiFastIrq_new "/dev/rp1_gpio_irq".

(** A listener that was started and runs. *)
Definition running_listener : RpiFastIrq (list GpioIrqEvent) * world :=
  let r := start V2 env_attached (Some record_cb) fresh_listener [] in
  (r.1.2, r.2).

(** ** The rest of the listener thread: the loop over many wake-ups *)


(** ** The callbacks of the front ends *)

(** [cps_monitor.cpp] 1.0.0 and the first [cps_root.cpp]:
    [g_pulse_count.fetch_add(1)] on a [std::atomic<uint32_t>]. *)
Definition pulse_callback : GpioIrqEvent -> Z -> Z :=
  fun _ g_pulse_count => wrap32 (g_pulse_count + 1).

(** The tick of their main loop: [g_pulse_count.exchange(0)], giving
    [current_cps] and the new counter. *)
Definition pulse_tick (g_pulse_count : Z) : Z * Z := (g_pulse_count, 0).

(** [cps_monitor.cpp] 2.1.0 and [cps_root.cpp] 1.1.0: the callback stores
    the record's timestamp and counter in [g_latest_timestamp_ns] and
    [g_latest_event_counter]. *)
Definition latest_callback : GpioIrqEvent -> Z * Z -> Z * Z :=
  fun event _ => (timestamp_ns event, event_counter event).

(** ** The consumer loop of [benchmark.cpp]

    The locals of [main] that the loop updates for each popped event. *)
Record capture : Type := mkCapture {
  last_timestamp : Z;    (* uint64_t *)
  dropped_events : Z;    (* uint32_t *)
  last_counter : Z;      (* uint32_t *)
  deltas : list Z        (* std::vector<uint64_t> *)
}.

Definition capture_start : capture := mkCapture 0 0 0 [].

(** The body of [if (g_event_buffer.pop(event))], without the progress
    line. *)
Definition capture_event (c : capture) (event : GpioIrqEvent) : capture :=
  let dropped :=
    if negb (last_counter c =? 0)
       && negb (event_counter event =? wrap32 (last_counter c + 1))
    then wrap32 (dropped_events c
                 + wrap32 (wrap32 (event_counter event - last_counter c) - 1))
    else dropped_events c in
  let ds :=
    if negb (last_timestamp c =? 0)
    then deltas c ++ [wrap64 (timestamp_ns event - last_timestamp c)]
    else deltas c in
  mkCapture (timestamp_ns event) dropped (event_counter event) ds.

Definition capture_all (events : list GpioIrqEvent) (c : capture) : capture :=
  fold_left capture_event events c.

(** ** Views of the two queues

    What a queue holds, oldest first, read off its cursors. *)

Definition spin_wf (k : Spinlock.kernel) : Prop :=
  0 <= Spinlock.k_head k < KBUF_SIZE /\
  0 <= Spinlock.k_tail k < KBUF_SIZE /\
  length (Spinlock.k_buffer k) = Z.to_nat KBUF_SIZE /\
  is_u32 (Spinlock.total_interrupts k).

Definition spin_occupancy (k : Spinlock.kernel) : nat :=
  Z.to_nat ((Spinlock.k_head k - Spinlock.k_tail k) mod KBUF_SIZE).

Definition spin_pending (k : Spinlock.kernel) : list GpioIrqEvent :=
  (fun i => Spinlock.k_buffer k
              !!! Z.to_nat ((Spinlock.k_tail k + Z.of_nat i) mod KBUF_SIZE))
    <$> seq 0 (spin_occupancy k).

Section QueueView.
Context {T : Type} `{Inhabited T}.
Variable Size : Z.

Definition queue_occupancy (q : LockFreeRingBuffer T) : nat :=
  Z.to_nat (wrap64 (m_head q - m_tail q)).

Definition queue_contents (q : LockFreeRingBuffer T) : list T :=
  (fun i => m_data q !!! Z.to_nat ((m_tail q + Z.of_nat i) mod Size))
    <$> seq 0 (queue_occupancy q).

Definition queue_inv (q : LockFreeRingBuffer T) : Prop :=
  queue_wf Size q /\ Z.of_nat (queue_occupancy q) <= Size.

(** [Size] is a power of two that fits [size_t], as 1024 is. *)
Definition queue_size_ok : Prop :=
  0 < Size < 2 ^ 64 /\ 2 ^ 64 mod Size = 0.

End QueueView.

(** ** Loading and unloading the mapped module

    [rpi_fast_irq_init] and [rpi_fast_irq_exit] as the sequence of what
    they acquire and release.  The calls whose result the code does not
    test ([cdev_add], [class_create], [device_create], [gpio_request]) are
    taken to succeed. *)

Inductive kres : Type :=
| KRegion      (* vmalloc_user / vfree *)
| KChrdev      (* alloc_chrdev_region / unregister_chrdev_region *)
| KCdev        (* cdev_add / cdev_del *)
| KClass       (* class_create / class_destroy *)
| KDevice      (* device_create / device_destroy *)
| KGpio        (* gpio_request / gpio_free *)
| KIrq.        (* request_irq / free_irq *)

#[global] Instance kres_eq_dec : EqDecision kres.
Proof. solve_decision. Defined.

Inductive kcall : Type := Acquire (r : kres) | Release (r : kres).

Record init_env : Type := mkInitEnv {
  vmalloc_user_ok : bool;           (* vmalloc_user returned non-NULL *)
  alloc_chrdev_region_result : Z;
  gpio_is_valid : bool;
  request_irq_result : Z
}.

Definition ENOMEM : Z := 12.

(** The labels [r_gpio], [r_device], [r_vmalloc] of the error exit. *)
Definition r_vmalloc : list kcall := [Release KRegion].
Definition r_device : list kcall :=
  [Release KDevice; Release KClass; Release KCdev; Release KChrdev] ++ r_vmalloc.
Definition r_gpio : list kcall := Release KGpio :: r_device.

(** The value returned and the calls made. *)
Definition rpi_fast_irq_init_run (env : init_env) : Z * list kcall :=
  if negb (vmalloc_user_ok env) then (- ENOMEM, [])
  else
    let c1 := [Acquire KRegion] in
    if alloc_chrdev_region_result env <? 0 then (-1, c1 ++ r_vmalloc)
    else
      let c2 := c1 ++ [Acquire KChrdev; Acquire KCdev; Acquire KClass;
                       Acquire KDevice] in
      if negb (gpio_is_valid env) then (-1, c2 ++ r_device)
      else
        let c3 := c2 ++ [Acquire KGpio] in
        if negb (request_irq_result env =? 0) then (-1, c3 ++ r_gpio)
        else (0, c3 ++ [Acquire KIrq]).

Definition rpi_fast_irq_exit_run : list kcall :=
  [Release KIrq; Release KGpio; Release KDevice; Release KClass;
   Release KCdev; Release KChrdev; Release KRegion].

(** What the kernel holds for the module after a sequence of calls, and
    how many releases hit something not held. *)
Definition kapply (st : list kres * nat) (c : kcall) : list kres * nat :=
  match c with
  | Acquire r => (r :: st.1, st.2)
  | Release r =>
      if bool_decide (r ∈ st.1) then (list_difference st.1 [r], st.2)
      else (st.1, S st.2)
  end.

Definition kheld (calls : list kcall) : list kres * nat :=
  fold_left kapply calls ([], 0%nat).

(** The differences of consecutive timestamps, in [uint64_t], after a
    previous timestamp [prev]. *)
Fixpoint consecutive_deltas (prev : Z) (events : list GpioIrqEvent) : list Z :=
  match events with
  | [] => []
  | e :: rest =>
      wrap64 (timestamp_ns e - prev) :: consecutive_deltas (timestamp_ns e) rest
  end.

(** [KBUF_SIZE + 5] interrupts, the [i]-th at time [i + 1]. *)
Definition overrun_inputs : list (Z * Z) :=
  (fun i => (Z.of_nat i + 1, 1)) <$> seq 0 261.

(** ** Runs of the mapped system *)

(** The steps of a schedule, one after the other; [None] when a pass ran
    out of fuel. *)
Definition sys_run {U} (m_callback : IrqCallback U) (actions : list action)
    (s : system U) : option (system U) :=
  fold_left (fun o a => match o with
                        | Some s => sys_step m_callback a s
                        | None => None
                        end)
    actions (Some s).

(** A burst of interrupts followed by one pass of the listener. *)
Definition burst_then_pass (fuel : nat) (burst : list (Z * Z)) : list action :=
  ((fun i => Interrupt i.1 i.2) <$> burst) ++ [Drain fuel].

(** The listener has seen everything published so far. *)
Definition sys_caught_up {U} (s : system U) : Prop :=
  shared_wf (Mapped.shared_buf (sys_kernel s)) /\
  is_u32 (Mapped.total_interrupts (sys_kernel s)) /\
  sys_local_tail s = sys_head s.

(* ===================================================================== *)
(** * Theorems *)
(* ===================================================================== *)

(** ** Arithmetic of the counters *)

Lemma wrap32_range n : is_u32 (wrap32 n).
Proof. unfold is_u32, wrap32. apply Z.mod_pos_bound. lia. Qed.

Lemma wrap32_id n : is_u32 n -> wrap32 n = n.
Proof. unfold is_u32, wrap32. intros. apply Z.mod_small. lia. Qed.

Lemma wrap32_succ a b : wrap32 (wrap32 a + b) = wrap32 (a + b).
Proof. unfold wrap32. by rewrite Zplus_mod_idemp_l. Qed.

(** [KBUF_SIZE] divides 2^32: reducing a wrapped counter to a slot loses
    nothing. *)
Lemma slot_of_wrap32 c : wrap32 c mod KBUF_SIZE = c mod KBUF_SIZE.
Proof.
  unfold wrap32, KBUF_SIZE. Z.div_mod_to_equations. lia.
Qed.

Lemma slot_index_bound c : (Z.to_nat (c mod KBUF_SIZE) < Z.to_nat KBUF_SIZE)%nat.
Proof.
  unfold KBUF_SIZE. pose proof (Z.mod_pos_bound c 256). lia.
Qed.

Lemma counts_length T n : length (counts T n) = n.
Proof. unfold counts. by rewrite length_fmap, length_seq. Qed.

Lemma counts_lookup T n i :
  (i < n)%nat -> counts T n !! i = Some (wrap32 (T + Z.of_nat i)).
Proof.
  intros Hi. unfold counts. rewrite list_lookup_fmap, lookup_seq_lt by done.
  reflexivity.
Qed.

Lemma counts_S T n :
  counts T (S n) = wrap32 T :: counts (wrap32 (T + 1)) n.
Proof.
  unfold counts. rewrite <- cons_seq, fmap_cons. f_equal.
  - f_equal. lia.
  - rewrite <- fmap_S_seq, <- list_fmap_compose. apply list_fmap_ext.
    intros _ i _. simpl. rewrite wrap32_succ. f_equal. lia.
Qed.

Lemma available_S H T :
  is_u32 H -> is_u32 T -> T <> H ->
  available H T = S (available H (wrap32 (T + 1))).
Proof.
  unfold available, wrap32, is_u32. intros HH HT Hne.
  rewrite <- Nat.add_1_r, <- (Z2Nat.inj_add _ 1) by (Z.div_mod_to_equations; lia).
  f_equal. Z.div_mod_to_equations. lia.
Qed.

Lemma available_diag H : available H H = 0%nat.
Proof. unfold available, wrap32. by rewrite Z.sub_diag. Qed.

Lemma available_bound H T : (Z.of_nat (available H T) < 2 ^ 32).
Proof.
  unfold available. pose proof (wrap32_range (H - T)) as []. lia.
Qed.

Lemma available_after T n :
  is_u32 T -> Z.of_nat n < 2 ^ 32 ->
  available (wrap32 (T + Z.of_nat n)) T = n.
Proof.
  unfold available, wrap32, is_u32. intros HT Hn.
  rewrite Zminus_mod_idemp_l.
  replace (T + Z.of_nat n - T) with (Z.of_nat n) by lia.
  rewrite Z.mod_small by lia. lia.
Qed.

Lemma counts_NoDup T n : Z.of_nat n <= 2 ^ 32 -> NoDup (counts T n).
Proof.
  intros Hn. apply NoDup_alt. intros i j x Hi Hj.
  assert (i < n)%nat as Hi'
    by (rewrite <- (counts_length T n); eauto using lookup_lt_Some).
  assert (j < n)%nat as Hj'
    by (rewrite <- (counts_length T n); eauto using lookup_lt_Some).
  rewrite counts_lookup in Hi, Hj by done.
  assert (E : wrap32 (T + Z.of_nat i) = wrap32 (T + Z.of_nat j)) by congruence.
  unfold wrap32 in E. revert E. Z.div_mod_to_equations. lia.
Qed.

(** ** The drain loop *)

Lemma drain_loop_spec {U} (cb : IrqCallback U) sb H :
  is_u32 H ->
  forall fuel T u,
    is_u32 T -> (available H T <= fuel)%nat ->
    drain_loop fuel cb sb H T u
    = Some (H, deliver cb sb (counts T (available H T)) u).
Proof.
  intros HH fuel. induction fuel as [|fuel IH]; intros T u HT Hfuel.
  - simpl. destruct (Z.eqb_spec T H) as [->|Hne].
    + by rewrite available_diag.
    + rewrite (available_S H T) in Hfuel by done. lia.
  - simpl. destruct (Z.eqb_spec T H) as [->|Hne].
    + by rewrite available_diag.
    + rewrite (available_S H T) in * by done.
      rewrite IH by (auto using wrap32_range; lia).
      rewrite counts_S, (wrap32_id T) by done. reflexivity.
Qed.

Lemma drain_pass_spec {U} (cb : IrqCallback U) sb fuel T u :
  is_u32 (head sb) -> is_u32 T -> (available (head sb) T <= fuel)%nat ->
  drain_pass fuel cb sb T u
  = Some (set_tail sb (head sb), head sb,
          deliver cb sb (counts T (available (head sb) T)) u).
Proof.
  intros. unfold drain_pass. by rewrite drain_loop_spec.
Qed.

(** A turn of the thread's loop in which [poll] reports [POLLIN] is a drain
    pass, and the loop goes on. *)
Lemma listener_thread_iter_ready {U} (cb : IrqCallback U) strerror p
    (t : thread U) fuel :
  0 < ret p -> Z.land (revents p) POLLIN <> 0 ->
  is_u32 (head (shm t)) -> is_u32 (local_tail t) ->
  (available (head (shm t)) (local_tail t) <= fuel)%nat ->
  listener_thread_iter fuel cb strerror p t
  = Some (Continue,
          mkThread (set_tail (shm t) (head (shm t))) (head (shm t))
            (deliver cb (shm t)
               (counts (local_tail t) (available (head (shm t)) (local_tail t)))
               (user t))
            (thread_err t)).
Proof.
  intros Hret Hin Hh Ht Hfuel. unfold listener_thread_iter.
  destruct (Z.ltb_spec (ret p) 0); [lia|].
  destruct (Z.ltb_spec 0 (ret p)); [|lia].
  destruct (Z.eqb_spec (Z.land (revents p) POLLIN) 0); [done|].
  by rewrite drain_pass_spec.
Qed.

(** A timeout, or an interrupted [poll], leaves the thread as it was. *)
Lemma listener_thread_iter_idle {U} (cb : IrqCallback U) strerror p
    (t : thread U) fuel :
  ret p = 0 \/ (ret p < 0 /\ errno p = EINTR) ->
  listener_thread_iter fuel cb strerror p t = Some (Continue, t).
Proof.
  intros [E|[Hneg E]]; unfold listener_thread_iter.
  - by rewrite E.
  - destruct (Z.ltb_spec (ret p) 0); [|lia]. by rewrite E.
Qed.

(** After a pass the driver's [poll] no longer reports the region
    readable. *)
Lemma drain_pass_quiets_poll {U} (cb : IrqCallback U) k fuel T u sb' T' u' :
  drain_pass fuel cb (Mapped.shared_buf k) T u = Some (sb', T', u') ->
  Mapped.dev_poll (Mapped.mkKernel sb' (Mapped.total_interrupts k)) = 0.
Proof.
  unfold drain_pass. destruct (drain_loop _ _ _ _ _ _) as [[t1 u1]|] eqn:E;
    [|discriminate].
  intros [= <- <- <-]. unfold Mapped.dev_poll. cbn.
  assert (t1 = head (Mapped.shared_buf k)) as ->; [|by rewrite Z.eqb_refl].
  clear -E. revert T u E. induction fuel as [|fuel IH]; intros T u; simpl.
  - destruct (Z.eqb_spec T (head (Mapped.shared_buf k))); [|discriminate].
    by intros [= <- _].
  - destruct (Z.eqb_spec T (head (Mapped.shared_buf k))).
    + by intros [= <- _].
    + apply IH.
Qed.

Lemma feed_record es log : feed (Some record_cb) es log = log ++ es.
Proof.
  revert log. induction es as [|e es IH]; intros log.
  - by rewrite app_nil_r.
  - change (feed (Some record_cb) (e :: es) log)
      with (feed (Some record_cb) es (log ++ [e])).
    by rewrite IH, <- app_assoc.
Qed.

Lemma feed_empty {U} es (u : U) : feed None es u = u.
Proof. induction es; simpl; auto. Qed.

(** ** The mapped producer *)

Lemma slot_wrap32 sb c : slot sb (wrap32 c) = slot sb c.
Proof. unfold slot. by rewrite slot_of_wrap32. Qed.

Lemma gpio_isr_head ts st k :
  head (Mapped.shared_buf (Mapped.gpio_isr ts st k))
  = wrap32 (head (Mapped.shared_buf k) + 1).
Proof. reflexivity. Qed.

Lemma gpio_isr_tail ts st k :
  tail (Mapped.shared_buf (Mapped.gpio_isr ts st k)) = tail (Mapped.shared_buf k).
Proof. reflexivity. Qed.

Lemma gpio_isr_total ts st k :
  Mapped.total_interrupts (Mapped.gpio_isr ts st k)
  = wrap32 (Mapped.total_interrupts k + 1).
Proof. reflexivity. Qed.

Lemma gpio_isr_length ts st k :
  length (events (Mapped.shared_buf (Mapped.gpio_isr ts st k)))
  = length (events (Mapped.shared_buf k)).
Proof. simpl. apply length_insert. Qed.

Lemma publish_all_snoc l x k :
  Mapped.publish_all (l ++ [x]) k
  = Mapped.gpio_isr x.1 x.2 (Mapped.publish_all l k).
Proof. unfold Mapped.publish_all. by rewrite fold_left_app. Qed.

Lemma publish_all_head l k :
  is_u32 (head (Mapped.shared_buf k)) ->
  head (Mapped.shared_buf (Mapped.publish_all l k))
  = wrap32 (head (Mapped.shared_buf k) + Z.of_nat (length l)).
Proof.
  intros Hh. induction l as [|x l IH] using rev_ind.
  - simpl. by rewrite Z.add_0_r, wrap32_id.
  - rewrite publish_all_snoc, gpio_isr_head, IH, wrap32_succ, length_app.
    simpl. f_equal. lia.
Qed.

Lemma publish_all_total l k :
  is_u32 (Mapped.total_interrupts k) ->
  Mapped.total_interrupts (Mapped.publish_all l k)
  = wrap32 (Mapped.total_interrupts k + Z.of_nat (length l)).
Proof.
  intros Hh. induction l as [|x l IH] using rev_ind.
  - simpl. by rewrite Z.add_0_r, wrap32_id.
  - rewrite publish_all_snoc, gpio_isr_total, IH, wrap32_succ, length_app.
    simpl. f_equal. lia.
Qed.

Lemma publish_all_tail l k :
  tail (Mapped.shared_buf (Mapped.publish_all l k)) = tail (Mapped.shared_buf k).
Proof.
  induction l as [|x l IH] using rev_ind; [done|].
  by rewrite publish_all_snoc, gpio_isr_tail.
Qed.

Lemma publish_all_length l k :
  length (events (Mapped.shared_buf (Mapped.publish_all l k)))
  = length (events (Mapped.shared_buf k)).
Proof.
  induction l as [|x l IH] using rev_ind; [done|].
  by rewrite publish_all_snoc, gpio_isr_length.
Qed.

(** Two counts less than [KBUF_SIZE] apart use different slots. *)
Lemma slots_apart c i j :
  (i < j)%nat -> Z.of_nat j < KBUF_SIZE + Z.of_nat i ->
  Z.to_nat ((c + Z.of_nat j) mod KBUF_SIZE)
  <> Z.to_nat ((c + Z.of_nat i) mod KBUF_SIZE).
Proof.
  unfold KBUF_SIZE. intros Hij Hj E.
  apply Z2Nat.inj in E; try (apply Z.mod_pos_bound; lia).
  revert E. Z.div_mod_to_equations. lia.
Qed.

(** After a run of interrupts of at most [KBUF_SIZE], the slot of the
    [i]-th new count holds what the [i]-th interrupt wrote. *)
Lemma publish_all_slot l k i x :
  is_u32 (head (Mapped.shared_buf k)) ->
  is_u32 (Mapped.total_interrupts k) ->
  length (events (Mapped.shared_buf k)) = Z.to_nat KBUF_SIZE ->
  Z.of_nat (length l) <= KBUF_SIZE ->
  l !! i = Some x ->
  slot (Mapped.shared_buf (Mapped.publish_all l k))
       (head (Mapped.shared_buf k) + Z.of_nat i)
  = Mapped.published (Mapped.total_interrupts k) i x.
Proof.
  intros Hh Ht Hlen. revert i x.
  induction l as [|y l IH] using rev_ind; intros i x Hn Hi; [done|].
  rewrite length_app in Hn. simpl in Hn.
  rewrite publish_all_snoc.
  unfold Mapped.gpio_isr, slot, store_slot.
  cbn [events set_events set_head Mapped.shared_buf].
  rewrite publish_all_head, publish_all_total, slot_of_wrap32 by done.
  apply lookup_snoc_Some in Hi as [[Hlt Hi]|[-> ->]].
  - rewrite list_lookup_total_insert_ne by (apply slots_apart; lia).
    apply IH; [lia | done].
  - rewrite list_lookup_total_insert_eq.
    + unfold Mapped.published. rewrite wrap32_succ. reflexivity.
    + rewrite publish_all_length, Hlen. apply slot_index_bound.
Qed.

Lemma published_all_length total l :
  length (Mapped.published_all total l) = length l.
Proof. unfold Mapped.published_all. apply length_imap. Qed.

Lemma published_all_lookup total l i :
  Mapped.published_all total l !! i = Mapped.published total i <$> l !! i.
Proof. unfold Mapped.published_all. apply list_lookup_imap. Qed.

(** The slots of the counts [T .. T+n) after [n] interrupts from a state
    with head [T] are the records published, oldest first. *)
Lemma publish_all_window l k :
  is_u32 (head (Mapped.shared_buf k)) ->
  is_u32 (Mapped.total_interrupts k) ->
  length (events (Mapped.shared_buf k)) = Z.to_nat KBUF_SIZE ->
  Z.of_nat (length l) <= KBUF_SIZE ->
  slot (Mapped.shared_buf (Mapped.publish_all l k))
    <$> counts (head (Mapped.shared_buf k)) (length l)
  = Mapped.published_all (Mapped.total_interrupts k) l.
Proof.
  intros Hh Ht Hlen Hn. apply list_eq. intros i.
  rewrite list_lookup_fmap, published_all_lookup.
  destruct (l !! i) as [x|] eqn:Hi.
  - rewrite counts_lookup by eauto using lookup_lt_Some. simpl.
    by rewrite slot_wrap32, (publish_all_slot l k i x).
  - apply lookup_ge_None in Hi.
    rewrite (proj2 (lookup_ge_None _ _)); [done|]. by rewrite counts_length.
Qed.

(** Interrupts, then one pass: the pass hands the callback the records of
    these interrupts, oldest first, and nothing else. *)
Lemma publish_then_drain {U} (cb : IrqCallback U) l k fuel u :
  is_u32 (head (Mapped.shared_buf k)) ->
  is_u32 (Mapped.total_interrupts k) ->
  length (events (Mapped.shared_buf k)) = Z.to_nat KBUF_SIZE ->
  Z.of_nat (length l) <= KBUF_SIZE ->
  (length l <= fuel)%nat ->
  let sb' := Mapped.shared_buf (Mapped.publish_all l k) in
  drain_pass fuel cb sb' (head (Mapped.shared_buf k)) u
  = Some (set_tail sb' (head sb'), head sb',
          feed cb (Mapped.published_all (Mapped.total_interrupts k) l) u).
Proof.
  intros Hh Ht Hlen Hn Hfuel sb'.
  assert (Hav : available (head sb') (head (Mapped.shared_buf k)) = length l).
  { unfold sb'. rewrite publish_all_head by done. apply available_after; [done|].
    unfold KBUF_SIZE in Hn. lia. }
  rewrite drain_pass_spec; [| | done | lia].
  - unfold deliver. rewrite Hav. unfold sb'. by rewrite publish_all_window.
  - unfold sb'. rewrite publish_all_head by done. apply wrap32_range.
Qed.

(** ** The drain pass *)

Lemma deliver_fold {U} (f : GpioIrqEvent -> U -> U) sb cs u :
  deliver (Some f) sb cs u
  = fold_left (fun u c => f (events sb !!! Z.to_nat (c mod KBUF_SIZE)) u) cs u.
Proof.
  revert u. induction cs as [|c cs IH]; intros u; [done|]. apply IH.
Qed.

(** C1.  One drain pass, entered with local tail [T] and observing head
    [H = head sb], invokes the callback exactly [H - T] (mod 2^32) times:
    once for each count [T, T+1, ..., H-1] (as [uint32_t]), in that order,
    each time on slot [count mod KBUF_SIZE]; the counts are pairwise
    distinct, and the pass ends with local tail and shared tail equal to
    [H].  For ten records published into a fresh region (sequence numbers
    1..10, any timestamps), a pass from tail 0 hands the callback exactly
    these ten, in the order 1,2,...,10. *)
Theorem drain_pass_delivers_each_record_once_in_order
    {U} (f : GpioIrqEvent -> U -> U) (sb : SharedRingBuffer) (T : Z) (u : U)
    (fuel : nat) :
  is_u32 (head sb) -> is_u32 T ->
  (Z.to_nat ((head sb - T) mod 2 ^ 32) <= fuel)%nat ->
  let n := Z.to_nat ((head sb - T) mod 2 ^ 32) in
  let order := counts T n in
  length order = n /\
  NoDup order /\
  (forall i, (i < n)%nat -> order !! i = Some ((T + Z.of_nat i) mod 2 ^ 32)) /\
  drain_pass fuel (Some f) sb T u
  = Some (set_tail sb (head sb), head sb,
          fold_left (fun u c => f (events sb !!! Z.to_nat (c mod KBUF_SIZE)) u)
            order u) /\
  drain_pass fuel (Some record_cb) sb T []
  = Some (set_tail sb (head sb), head sb,
          (fun c => events sb !!! Z.to_nat (c mod KBUF_SIZE)) <$> order) /\
  (forall inputs : list (Z * Z),
      length inputs = 10%nat ->
      let sb10 :=
        Mapped.shared_buf (Mapped.publish_all inputs Mapped.rpi_fast_irq_init) in
      head sb10 = 10 /\
      exists delivered,
        drain_pass 10 (Some record_cb) sb10 0 []
        = Some (set_tail sb10 10, 10, delivered) /\
        event_counter <$> delivered = [1; 2; 3; 4; 5; 6; 7; 8; 9; 10] /\
        timestamp_ns <$> delivered = inputs.*1).
Proof.
  intros Hh HT Hfuel n order.
  assert (Hn : Z.of_nat n < 2 ^ 32) by apply (available_bound (head sb) T).
  split; [apply counts_length|].
  split; [apply counts_NoDup; lia|].
  split; [apply counts_lookup|].
  split; [|split].
  - rewrite drain_pass_spec by done. do 2 f_equal. apply deliver_fold.
  - rewrite drain_pass_spec by done. do 2 f_equal.
    unfold deliver. by rewrite feed_record.
  - intros inputs Hlen sb10.
    pose proof (publish_then_drain (Some record_cb) inputs
                  Mapped.rpi_fast_irq_init 10 []) as Hdrain.
    assert (Hhead : head sb10 = 10).
    { unfold sb10. rewrite publish_all_head, Hlen; [done|].
      unfold is_u32. simpl. lia. }
    split; [done|].
    exists (Mapped.published_all 0 inputs).
    split.
    + cbv zeta in Hdrain. fold sb10 in Hdrain. rewrite Hhead in Hdrain.
      rewrite feed_record in Hdrain. apply Hdrain.
      * unfold is_u32. simpl. lia.
      * unfold is_u32. simpl. lia.
      * exact (length_replicate _ _).
      * rewrite Hlen. unfold KBUF_SIZE. lia.
      * lia.
    + do 11 (destruct inputs as [|? inputs]; try discriminate Hlen).
      split; reflexivity.
Qed.

Lemma drain_pass_delivers_each_record_once_in_order_witness :
  drain_pass 10 (Some record_cb) (Mapped.shared_buf ten_published) 0 []
  = Some (set_tail (Mapped.shared_buf ten_published) 10, 10,
          [mkEvent 1000 1 1; mkEvent 2000 2 1; mkEvent 3500 3 0;
           mkEvent 4000 4 1; mkEvent 5200 5 1; mkEvent 6000 6 0;
           mkEvent 7100 7 1; mkEvent 8000 8 1; mkEvent 9900 9 0;
           mkEvent 10000 10 1]).
Proof.
  refine (proj1 (proj2 (proj2 (proj2 (proj2
    (drain_pass_delivers_each_record_once_in_order record_cb
       (Mapped.shared_buf ten_published) 0 [] 10 _ _ _)))))).
  - vm_compute. split; [discriminate | reflexivity].
  - vm_compute. split; [discriminate | reflexivity].
  - vm_compute. lia.
Defined.

(** ** Counters that wrap *)

(** C4.  The cursors are counters modulo 2^32.  One interrupt stores its
    record in slot [head mod KBUF_SIZE] and then stores [head + 1]
    (wrapped) to [head]; one turn of the drain loop leaves when
    [local_tail = current_head] and otherwise reads slot
    [local_tail mod KBUF_SIZE] and goes on from [local_tail + 1] (wrapped).
    From any head value [T], wrapped or about to wrap, after at most
    [KBUF_SIZE] interrupts a pass entered with local tail [T] hands the
    callback exactly the records of these interrupts, oldest first, and
    ends at the new head. *)
Theorem counters_wrap_without_special_case
    {U} (cb : IrqCallback U) (k : Mapped.kernel) (inputs : list (Z * Z))
    (fuel : nat) (u : U) :
  shared_wf (Mapped.shared_buf k) ->
  is_u32 (Mapped.total_interrupts k) ->
  Z.of_nat (length inputs) <= KBUF_SIZE ->
  (length inputs <= fuel)%nat ->
  let T := head (Mapped.shared_buf k) in
  let total := Mapped.total_interrupts k in
  let sb' := Mapped.shared_buf (Mapped.publish_all inputs k) in
  (forall ts state,
      Mapped.gpio_isr ts state k
      = Mapped.mkKernel
          (mkShared ((T + 1) mod 2 ^ 32) (tail (Mapped.shared_buf k))
             (<[Z.to_nat (T mod KBUF_SIZE)
                := mkEvent ts ((total + 1) mod 2 ^ 32) (state mod 2 ^ 32)]>
                (events (Mapped.shared_buf k))))
          ((total + 1) mod 2 ^ 32)) /\
  (forall H t,
      drain_loop (S fuel) cb sb' H t u
      = if t =? H then Some (t, u)
        else drain_loop fuel cb sb' H ((t + 1) mod 2 ^ 32)
               (dispatch cb (events sb' !!! Z.to_nat (t mod KBUF_SIZE)) u)) /\
  head sb' = (T + Z.of_nat (length inputs)) mod 2 ^ 32 /\
  (forall i x,
      inputs !! i = Some x ->
      events sb' !! Z.to_nat ((T + Z.of_nat i) mod KBUF_SIZE)
      = Some (mkEvent x.1 ((total + Z.of_nat i + 1) mod 2 ^ 32)
                (x.2 mod 2 ^ 32))) /\
  drain_pass fuel cb sb' T u
  = Some (set_tail sb' (head sb'), head sb',
          feed cb (Mapped.published_all total inputs) u).
Proof.
  intros (Hh & Ht & Hlen) Htot Hn Hfuel T total sb'.
  split; [reflexivity|]. split; [reflexivity|].
  split; [apply publish_all_head; done|].
  split.
  - intros i x Hi.
    pose proof (publish_all_slot inputs k i x Hh Htot Hlen Hn Hi) as Hs.
    rewrite list_lookup_lookup_total_lt.
    + f_equal. exact Hs.
    + unfold sb'. rewrite publish_all_length, Hlen. apply slot_index_bound.
  - by apply publish_then_drain.
Qed.

Lemma counters_wrap_without_special_case_witness :
  let sb' := Mapped.shared_buf (Mapped.publish_all five_inputs near_wrap) in
  head sb' = 2 /\
  drain_pass 5 (Some record_cb) sb' 4294967293 []
  = Some (set_tail sb' 2, 2,
          [mkEvent 10 4294967294 1; mkEvent 20 4294967295 1; mkEvent 30 0 0;
           mkEvent 40 1 1; mkEvent 50 2 1]).
Proof.
  pose proof (counters_wrap_without_special_case (Some record_cb) near_wrap
                five_inputs 5 []) as W.
  cbv zeta in W.
  destruct W as (_ & _ & Hhead & _ & Hdrain).
  - repeat split; try (vm_compute; congruence).
  - vm_compute. split; [discriminate | reflexivity].
  - vm_compute. discriminate.
  - simpl. lia.
  - split; [exact Hhead | exact Hdrain].
Defined.

(** ** The empty callback *)

(** C10.  [start] takes an empty callback like any other and stores it.
    With an empty callback a dispatch does nothing; a drain pass still
    walks from the local tail to the head and stores the head to [tail],
    exactly as a pass with a target does, and the application state is
    untouched.  The [read()] listener guards its dispatch the same way: the
    record is read from the driver whether or not there is a target. *)
Theorem empty_callback_is_guarded
    {U} (f : GpioIrqEvent -> U -> U) (sb : SharedRingBuffer) (T : Z) (u : U)
    (fuel : nat) :
  is_u32 (head sb) -> is_u32 T ->
  (Z.to_nat ((head sb - T) mod 2 ^ 32) <= fuel)%nat ->
  (forall v env (l : RpiFastIrq U) w,
      m_running l = false -> 0 <= open_result env ->
      mmap_result env <> MAP_FAILED ->
      exists l' w',
        start v env None l w = (true, l', w') /\ m_callback l' = None) /\
  (forall e u0, dispatch (None : IrqCallback U) e u0 = u0) /\
  drain_pass fuel None sb T u = Some (set_tail sb (head sb), head sb, u) /\
  (exists u',
      drain_pass fuel (Some f) sb T u
      = Some (set_tail sb (head sb), head sb, u')) /\
  (forall strerror copy_ok k err,
      (read_pass None strerror copy_ok k u err).1.1
      = (read_pass (Some f) strerror copy_ok k u err).1.1 /\
      (read_pass None strerror copy_ok k u err).1.2 = u).
Proof.
  intros Hh HT Hfuel. repeat split.
  - intros v env l w Hrun Hfd Hmap. unfold start. rewrite Hrun.
    destruct (Z.ltb_spec (open_result env) 0); [lia|].
    rewrite bool_decide_eq_false_2 by done. eauto.
  - rewrite drain_pass_spec by done. unfold deliver. by rewrite feed_empty.
  - rewrite drain_pass_spec by done. eauto.
  - unfold read_pass. by destruct copy_ok.
  - unfold read_pass. by destruct copy_ok.
Qed.

Lemma empty_callback_is_guarded_witness :
  drain_pass 10 (None : IrqCallback (list GpioIrqEvent))
    (Mapped.shared_buf ten_published) 0 []
  = Some (set_tail (Mapped.shared_buf ten_published) 10, 10, []).
Proof.
  refine (proj1 (proj2 (proj2
    (empty_callback_is_guarded record_cb (Mapped.shared_buf ten_published)
       0 [] 10 _ _ _)))).
  - vm_compute. split; [discriminate | reflexivity].
  - vm_compute. split; [discriminate | reflexivity].
  - vm_compute. lia.
Defined.

(** ** The first pass after [start] *)

(** C2.  Whatever the region holds when the listener is started (any
    head, any tail, any records published before), the thread of version
    2.0.0 enters its loop with [local_tail] and the shared [tail] equal to
    the current [head].  Its first pass therefore invokes the callback on
    none of the records that were there before: with no new interrupt it
    invokes nothing, and after new interrupts it hands over exactly these,
    oldest first. *)
Theorem listener_entry_drops_backlog
    {U} (cb : IrqCallback U) (k : Mapped.kernel) (sched_ok : bool) (u : U)
    (inputs : list (Z * Z)) (fuel : nat) :
  shared_wf (Mapped.shared_buf k) ->
  is_u32 (Mapped.total_interrupts k) ->
  Z.of_nat (length inputs) <= KBUF_SIZE ->
  (length inputs <= fuel)%nat ->
  let t := listener_thread_entry sched_ok (Mapped.shared_buf k) u in
  let k1 := Mapped.mkKernel (shm t) (Mapped.total_interrupts k) in
  let sb' := Mapped.shared_buf (Mapped.publish_all inputs k1) in
  local_tail t = head (Mapped.shared_buf k) /\
  tail (shm t) = head (Mapped.shared_buf k) /\
  drain_pass fuel cb (shm t) (local_tail t) (user t) = Some (shm t, local_tail t, u) /\
  drain_pass fuel cb sb' (local_tail t) (user t)
  = Some (set_tail sb' (head sb'), head sb',
          feed cb (Mapped.published_all (Mapped.total_interrupts k) inputs) u).
Proof.
  intros (Hh & Ht & Hlen) Htot Hn Hfuel t k1 sb'.
  split; [done|]. split; [done|]. split.
  - unfold drain_pass. simpl. destruct fuel; simpl; by rewrite Z.eqb_refl.
  - apply (publish_then_drain cb inputs k1 fuel u); done.
Qed.

Lemma listener_entry_drops_backlog_witness :
  let t := listener_thread_entry true (Mapped.shared_buf ten_published)
             ([] : list GpioIrqEvent) in
  let sb' :=
    Mapped.shared_buf
      (Mapped.publish_all five_inputs
         (Mapped.mkKernel (shm t) (Mapped.total_interrupts ten_published))) in
  local_tail t = 10 /\
  drain_pass 5 (Some record_cb) (shm t) (local_tail t) (user t)
  = Some (shm t, local_tail t, []) /\
  drain_pass 5 (Some record_cb) sb' (local_tail t) (user t)
  = Some (set_tail sb' 15, 15,
          [mkEvent 10 11 1; mkEvent 20 12 1; mkEvent 30 13 0;
           mkEvent 40 14 1; mkEvent 50 15 1]).
Proof.
  pose proof (listener_entry_drops_backlog (Some record_cb) ten_published true
                ([] : list GpioIrqEvent) five_inputs 5) as W.
  cbv zeta in W. destruct W as (Hlt & _ & Hnone & Hnew).
  - repeat split; vm_compute; congruence.
  - vm_compute. split; [discriminate | reflexivity].
  - vm_compute. discriminate.
  - simpl. lia.
  - cbv zeta. split; [exact Hlt|]. split; [exact Hnone | exact Hnew].
Defined.

(** ** Who writes which cursor *)

Lemma interrupts_reachable n ts state :
  Spinlock.reachable (Spinlock.interrupts n ts state Spinlock.module_init).
Proof.
  induction n as [|n IH]; [constructor|].
  unfold Spinlock.interrupts. simpl. by constructor.
Qed.

(** C3, as stated, fails for the spinlock producer: after 255 interrupts
    and no read, [k_tail] is 0, and the 256th interrupt moves it to 1. *)
Lemma spinlock_isr_writes_tail :
  let k := Spinlock.interrupts 255 0 0 Spinlock.module_init in
  Spinlock.reachable k /\
  Spinlock.k_head k = 255 /\
  Spinlock.k_tail k = 0 /\
  Spinlock.k_head (Spinlock.gpio_isr 0 0 k) = 0 /\
  Spinlock.k_tail (Spinlock.gpio_isr 0 0 k) = 1.
Proof.
  split; [apply interrupts_reachable|]. vm_compute. repeat split.
Qed.

(** C3, amended.  In the mapped variant every producer step leaves [tail]
    (and the consumer's state) as it was, and every consumer step leaves
    [head], the slots and the interrupt counter as they were.  In the
    spinlock variant the reader never writes [k_head], and the interrupt
    handler, holding the lock, moves [k_tail] exactly when the advanced
    head meets it, by one slot. *)
Theorem each_cursor_has_one_writer_in_mapped_variant
    {U} (cb : IrqCallback U) (a : action) (s s' : system U) :
  sys_step cb a s = Some s' ->
  (is_producer a = true ->
     sys_tail s' = sys_tail s /\
     sys_local_tail s' = sys_local_tail s /\ sys_user s' = sys_user s) /\
  (is_consumer a = true ->
     sys_head s' = sys_head s /\
     events (Mapped.shared_buf (sys_kernel s'))
     = events (Mapped.shared_buf (sys_kernel s)) /\
     Mapped.total_interrupts (sys_kernel s')
     = Mapped.total_interrupts (sys_kernel s)) /\
  (forall len ok k,
      Spinlock.k_head (Spinlock.dev_read len ok k).2 = Spinlock.k_head k) /\
  (forall ts state k,
      Spinlock.k_tail (Spinlock.gpio_isr ts state k)
      = if Spinlock.k_head (Spinlock.gpio_isr ts state k) =? Spinlock.k_tail k
        then (Spinlock.k_tail k + 1) mod 2 ^ 32 mod KBUF_SIZE
        else Spinlock.k_tail k).
Proof.
  intros Hstep.
  assert (Hcons : is_consumer a = true ->
            exists t, Mapped.shared_buf (sys_kernel s')
                      = set_tail (Mapped.shared_buf (sys_kernel s)) t /\
                      Mapped.total_interrupts (sys_kernel s')
                      = Mapped.total_interrupts (sys_kernel s)).
  { intros Ha. destruct a as [| |fuel]; try discriminate; simpl in Hstep.
    - injection Hstep as <-. eauto.
    - unfold drain_pass in Hstep.
      destruct (drain_loop _ _ _ _ _ _) as [[t u']|]; [|discriminate].
      injection Hstep as <-. eauto. }
  split; [|split; [|split]].
  - intros Ha. destruct a; try discriminate. by injection Hstep as <-.
  - intros Ha. destruct (Hcons Ha) as (t & E & Etot).
    unfold sys_head. by rewrite E.
  - intros len ok k. unfold Spinlock.dev_read.
    destruct (len <? _), ok; reflexivity.
  - reflexivity.
Qed.

Lemma each_cursor_has_one_writer_in_mapped_variant_witness :
  let s := mkSystem ten_published 0 ([] : list GpioIrqEvent) in
  (exists s', sys_step (Some record_cb) (Interrupt 11000 1) s = Some s' /\
              sys_head s' = 11 /\ sys_tail s' = sys_tail s) /\
  (exists s', sys_step (Some record_cb) (Drain 10) s = Some s' /\
              sys_tail s' = 10 /\ sys_head s' = sys_head s).
Proof.
  intros s. split.
  - eexists. split; [reflexivity|]. split; [reflexivity|].
    exact (proj1 (proj1 (each_cursor_has_one_writer_in_mapped_variant
                           (Some record_cb) (Interrupt 11000 1) s _ eq_refl)
                        eq_refl)).
  - eexists. split; [vm_compute; reflexivity|]. split; [reflexivity|].
    refine (proj1 (proj1 (proj2 (each_cursor_has_one_writer_in_mapped_variant
                           (Some record_cb) (Drain 10) s _ _)) eq_refl)).
    vm_compute. reflexivity.
Defined.

(** ** The life cycle of the listener *)

Lemma held_app w es : held (w ++ es) = fold_left apply_effect es (held w).
Proof. unfold held. apply fold_left_app. Qed.

Lemma list_difference_same {A} `{EqDecision A} (x : A) :
  list_difference [x] [x] = [].
Proof.
  simpl. destruct (decide_rel elem_of x [x]) as [|Hn]; [done|].
  destruct Hn. by left.
Qed.

Lemma apply_close_only fd ms t f :
  apply_effect (mkResources [fd] ms t f) (SysClose fd) = mkResources [] ms t f.
Proof.
  unfold apply_effect. cbn [fds maps threads faults].
  rewrite bool_decide_eq_true_2 by (by left).
  by rewrite list_difference_same.
Qed.

Lemma apply_munmap_only fs p len t f :
  apply_effect (mkResources fs [p] t f) (SysMunmap p len) = mkResources fs [] t f.
Proof.
  unfold apply_effect. cbn [fds maps threads faults].
  rewrite bool_decide_eq_true_2 by (by left).
  by rewrite list_difference_same.
Qed.

Section LifeCycle.
Context {U : Type}.
Implicit Types (l : RpiFastIrq U) (w : world) (cb : IrqCallback U).

Lemma start_running v env cb l w :
  m_running l = true ->
  start v env cb l w = (false, l, w ++ [Cerr msg_already_running]).
Proof. intros Hr. unfold start. by rewrite Hr. Qed.

Lemma start_open_fails v env cb l w :
  m_running l = false -> open_result env < 0 ->
  start v env cb l w
  = (false,
     mkListener (m_device_path l) (open_result env) (m_shared_buf l)
       (m_mmap_size l) false (m_callback l) (m_listener_thread l),
     w ++ [SysOpen (m_device_path l) (open_flags v) (open_result env);
           Cerr (msg_open_failed v (m_device_path l)
                   (strerror env (open_errno env)))]).
Proof.
  intros Hr Hfd. unfold start. rewrite Hr.
  destruct (Z.ltb_spec (open_result env) 0); [|lia].
  by rewrite <- app_assoc.
Qed.

Lemma start_mmap_fails v env cb l w :
  m_running l = false -> 0 <= open_result env ->
  mmap_result env = MAP_FAILED ->
  start v env cb l w
  = (false,
     mkListener (m_device_path l) (-1) MAP_FAILED
       (page_round_up sizeof_SharedRingBuffer (page_size env)) false
       (m_callback l) (m_listener_thread l),
     w ++ [SysOpen (m_device_path l) (open_flags v) (open_result env);
           SysMmap (page_round_up sizeof_SharedRingBuffer (page_size env))
             (open_result env) MAP_FAILED;
           Cerr (msg_mmap_failed v (strerror env (mmap_errno env)));
           SysClose (open_result env)]).
Proof.
  intros Hr Hfd Hmap. unfold start. rewrite Hr, Hmap.
  destruct (Z.ltb_spec (open_result env) 0); [lia|].
  rewrite bool_decide_eq_true_2 by done.
  by rewrite <- !app_assoc.
Qed.

Lemma start_succeeds v env cb l w :
  m_running l = false -> 0 <= open_result env ->
  mmap_result env <> MAP_FAILED ->
  start v env cb l w
  = (true,
     mkListener (m_device_path l) (open_result env) (mmap_result env)
       (page_round_up sizeof_SharedRingBuffer (page_size env)) true cb joinable,
     w ++ [SysOpen (m_device_path l) (open_flags v) (open_result env);
           SysMmap (page_round_up sizeof_SharedRingBuffer (page_size env))
             (open_result env) (mmap_result env);
           ThreadSpawn]).
Proof.
  intros Hr Hfd Hmap. unfold start. rewrite Hr.
  destruct (Z.ltb_spec (open_result env) 0); [lia|].
  rewrite bool_decide_eq_false_2 by done.
  by rewrite <- !app_assoc.
Qed.


Lemma stop_idle l w : m_running l = false -> stop l w = (l, w).
Proof. intros Hr. unfold stop. by rewrite Hr. Qed.

Lemma stop_running l w :
  m_running l = true -> lifecycle_inv l w ->
  stop l w
  = (mkListener (m_device_path l) (-1) nullptr (m_mmap_size l) false
       (m_callback l) not_joinable,
     w ++ [ThreadJoin; SysMunmap (m_shared_buf l) (m_mmap_size l);
           SysClose (m_fd l)]).
Proof.
  intros Hr Hinv. unfold lifecycle_inv in Hinv. rewrite Hr in Hinv.
  destruct Hinv as (Hfd & Hmap & Hth & _).
  unfold stop. rewrite Hr, Hth. cbn [negb].
  destruct (m_shared_buf l) as [| |a]; try discriminate.
  destruct (Z.leb_spec 0 (m_fd l)); [|lia].
  by rewrite <- !app_assoc.
Qed.

Lemma lifecycle_inv_start v env cb l w :
  posix env -> lifecycle_inv l w ->
  lifecycle_inv (start v env cb l w).1.2 (start v env cb l w).2.
Proof.
  intros [Hopen Hnull] Hinv.
  destruct (m_running l) eqn:Hr.
  - rewrite start_running by done. cbn [fst snd].
    unfold lifecycle_inv in *. rewrite Hr in *.
    rewrite held_app. cbn. tauto.
  - unfold lifecycle_inv in Hinv. rewrite Hr in Hinv.
    destruct Hinv as ((_ & Hfd & Hmap & Hth) & Hheld).
    destruct (Z.lt_ge_cases (open_result env) 0) as [Hneg|Hpos].
    + rewrite start_open_fails by done. cbn [fst snd].
      unfold lifecycle_inv, idle. cbn [m_running m_fd m_shared_buf m_listener_thread].
      rewrite held_app, Hheld. cbn [fold_left apply_effect].
      destruct (Z.leb_spec 0 (open_result env)); [lia|].
      rewrite Hopen by done. tauto.
    + destruct (decide (mmap_result env = MAP_FAILED)) as [Hfail|Hok].
      * rewrite start_mmap_fails by done. cbn [fst snd].
        unfold lifecycle_inv, idle.
        cbn [m_running m_fd m_shared_buf m_listener_thread is_mapped].
        rewrite held_app, Hheld. cbn [fold_left].
        unfold apply_effect at 4 3 2. cbn [is_mapped fds maps threads faults no_resources].
        destruct (Z.leb_spec 0 (open_result env)); [|lia].
        by rewrite apply_close_only.
      * rewrite start_succeeds by done. cbn [fst snd].
        unfold lifecycle_inv.
        cbn [m_running m_fd m_shared_buf m_listener_thread].
        rewrite held_app, Hheld. cbn [fold_left apply_effect].
        destruct (Z.leb_spec 0 (open_result env)); [|lia].
        destruct (mmap_result env) as [| |a]; try done.
Qed.

Lemma lifecycle_inv_stop l w :
  lifecycle_inv l w -> lifecycle_inv (stop l w).1 (stop l w).2.
Proof.
  intros Hinv. destruct (m_running l) eqn:Hr.
  - rewrite stop_running by done. cbn [fst snd].
    unfold lifecycle_inv in *. rewrite Hr in Hinv.
    destruct Hinv as (Hfd & Hmap & Hth & Hheld).
    unfold idle. cbn [m_running m_fd m_shared_buf m_listener_thread is_mapped].
    rewrite held_app, Hheld. cbn [fold_left].
    unfold apply_effect at 3. cbn [fds maps threads faults].
    by rewrite apply_munmap_only, apply_close_only.
  - by rewrite stop_idle.
Qed.

Lemma reachable_inv_pair v (p : RpiFastIrq U * world) :
  reachable v p -> lifecycle_inv p.1 p.2.
Proof.
  induction 1 as [path | env cb l0 w0 _ IH Hposix | l0 w0 _ IH]; cbn [fst snd] in *.
  - unfold lifecycle_inv, idle. cbn. tauto.
  - by apply lifecycle_inv_start.
  - by apply lifecycle_inv_stop.
Qed.

Lemma reachable_inv v l w : reachable v (l, w) -> lifecycle_inv l w.
Proof. apply (reachable_inv_pair v (l, w)). Qed.

End LifeCycle.



Lemma closes_app fd w1 w2 : closes fd (w1 ++ w2) = (closes fd w1 + closes fd w2)%nat.
Proof. unfold closes. by rewrite List.filter_app, length_app. Qed.

Lemma unmaps_app p w1 w2 : unmaps p (w1 ++ w2) = (unmaps p w1 + unmaps p w2)%nat.
Proof. unfold unmaps. by rewrite List.filter_app, length_app. Qed.

Lemma joins_app w1 w2 : joins (w1 ++ w2) = (joins w1 + joins w2)%nat.
Proof. unfold joins. by rewrite List.filter_app, length_app. Qed.

(** C6.  [stop] on a listener that is not running, and so the destructor
    after a [stop], changes nothing and makes no call.  After one [stop] a
    second [stop] changes nothing: the listener is idle, the process holds
    nothing, and nothing was released that was not held.  A [stop] of a
    running listener makes exactly three calls: one join, one [munmap] of
    the region, one [close] of the descriptor. *)
Theorem stop_is_idempotent
    {U} (v : variant) (l : RpiFastIrq U) (w : world) :
  reachable v (l, w) ->
  let l1 := (stop l w).1 in
  let w1 := (stop l w).2 in
  (m_running l = false -> stop l w = (l, w) /\ destroy l w = (l, w)) /\
  stop l1 w1 = (l1, w1) /\
  destroy l1 w1 = (l1, w1) /\
  idle l1 /\
  held w1 = no_resources /\
  (m_running l = true ->
     w1 = w ++ [ThreadJoin; SysMunmap (m_shared_buf l) (m_mmap_size l);
                SysClose (m_fd l)] /\
     joins (stop l1 w1).2 = S (joins w) /\
     unmaps (m_shared_buf l) (stop l1 w1).2 = S (unmaps (m_shared_buf l) w) /\
     closes (m_fd l) (stop l1 w1).2 = S (closes (m_fd l) w)).
Proof.
  intros Hreach l1 w1.
  pose proof (reachable_inv _ _ _ Hreach) as Hinv.
  pose proof (lifecycle_inv_stop l w Hinv) as Hinv1. fold l1 w1 in Hinv1.
  assert (Hr1 : m_running l1 = false).
  { unfold l1. destruct (m_running l) eqn:Hr.
    - by rewrite stop_running.
    - by rewrite stop_idle. }
  unfold lifecycle_inv in Hinv1. rewrite Hr1 in Hinv1.
  destruct Hinv1 as [Hidle Hheld].
  split; [|split; [|split; [|split; [|split]]]]; try done.
  - intros Hr. unfold destroy. by rewrite stop_idle.
  - by apply stop_idle.
  - unfold destroy. by apply stop_idle.
  - intros Hr. rewrite (stop_idle l1 w1 Hr1). unfold w1. cbn [snd].
    rewrite stop_running by done. cbn [snd].
    split; [done|].
    rewrite joins_app, unmaps_app, closes_app.
    unfold joins, unmaps, closes. cbn [List.filter is_join is_munmap is_close].
    rewrite bool_decide_eq_true_2 by done. rewrite Z.eqb_refl.
    cbn [length]. lia.
Qed.

Lemma stop_is_idempotent_witness :
  let l := running_listener.1 in
  let w := running_listener.2 in
  m_running l = true /\
  stop (stop l w).1 (stop l w).2 = stop l w /\
  held (stop l w).2 = no_resources.
Proof.
  pose proof (stop_is_idempotent V2 running_listener.1 running_listener.2) as W.
  cbv zeta in W. destruct W as (_ & Hagain & _ & _ & Hheld & _).
  - apply (reach_start V2 env_attached (Some record_cb) fresh_listener []).
    + apply reach_new.
    + split; [vm_compute; congruence | discriminate].
  - cbv zeta. split; [reflexivity|]. split; [|exact Hheld].
    rewrite Hagain. by destruct (stop _ _).
Defined.

(** ** What [start] tells its caller *)

(** C8, as stated, fails: whenever one call of [start] is rejected because
    the listener runs and another fails because the device cannot be
    opened, the two calls return the same value. *)
Lemma start_failures_return_the_same_value :
  ~ (exists (U : Type) (v : variant) (env1 env2 : start_env)
            (cb1 cb2 : IrqCallback U) (l1 l2 : RpiFastIrq U) (w1 w2 : world),
        m_running l1 = true /\
        m_running l2 = false /\ open_result env2 < 0 /\
        (start v env1 cb1 l1 w1).1.1 <> (start v env2 cb2 l2 w2).1.1).
Proof.
  intros (U & v & env1 & env2 & cb1 & cb2 & l1 & l2 & w1 & w2
          & Hr1 & Hr2 & Hneg & Hdiff).
  apply Hdiff. rewrite start_running, start_open_fails by done. reflexivity.
Qed.

(** C8, amended.  [start] returns false when the listener already runs,
    false when the device cannot be opened and false when the mapping
    fails: the caller gets the same value.  The calls differ in the line
    they write to [std::cerr], the last entry of the trace for the first
    two. *)
Theorem start_failures_differ_only_on_cerr
    {U} (v : variant) (env1 env2 env3 : start_env) (cb1 cb2 : IrqCallback U)
    (l1 l2 : RpiFastIrq U) (w1 w2 : world) :
  m_running l1 = true ->
  m_running l2 = false -> open_result env2 < 0 ->
  0 <= open_result env3 -> mmap_result env3 = MAP_FAILED ->
  let already := msg_already_running in
  let no_open :=
    msg_open_failed v (m_device_path l2) (strerror env2 (open_errno env2)) in
  (start v env1 cb1 l1 w1).1.1 = false /\
  (start v env2 cb2 l2 w2).1.1 = false /\
  (start v env3 cb2 l2 w2).1.1 = false /\
  last (start v env1 cb1 l1 w1).2 = Some (Cerr already) /\
  last (start v env2 cb2 l2 w2).2 = Some (Cerr no_open) /\
  already <> no_open.
Proof.
  intros Hr1 Hr2 Hneg Hpos Hmap already no_open.
  rewrite start_running, start_open_fails, start_mmap_fails by done.
  cbn [fst snd]. rewrite !last_snoc.
  repeat split; try done.
  - by rewrite (last_app _ [_; _]).
  - unfold already, no_open, msg_already_running, msg_open_failed, red.
    destruct v; cbn; discriminate.
Qed.

Lemma start_failures_differ_only_on_cerr_witness :
  (start V2 env_attached None running_listener.1 running_listener.2).1.1
  = (start V2 env_no_device None fresh_listener []).1.1.
Proof.
  destruct (start_failures_differ_only_on_cerr V2 env_attached env_no_device
              env_mmap_refused None None running_listener.1 fresh_listener
              running_listener.2 [])
    as (E1 & E2 & _).
  - reflexivity.
  - reflexivity.
  - vm_compute. reflexivity.
  - vm_compute. discriminate.
  - reflexivity.
  - rewrite E1, E2. reflexivity.
Defined.

(** ** The queue behind the callback *)

(** C9.  [push] on a full queue ([m_head - m_tail >= Size] in [size_t])
    returns false and leaves data, head and tail as they were; otherwise it
    stores the item in slot [m_head mod Size], leaves the other slots,
    advances [m_head] by one and returns true.  [pop] on an empty queue
    ([m_tail = m_head]) returns false and leaves the caller's item and the
    queue as they were; otherwise it returns the item of slot
    [m_tail mod Size] and advances [m_tail] by one.  The callback of
    [main.cpp] returns with the queue unchanged when it is full. *)
Theorem queue_push_drops_newest_when_full
    {T} `{Inhabited T} (Size : Z) (q : LockFreeRingBuffer T) (item : T) :
  0 < Size -> queue_wf Size q ->
  (Size <= (m_head q - m_tail q) mod 2 ^ 64 -> push Size item q = (false, q)) /\
  ((m_head q - m_tail q) mod 2 ^ 64 < Size ->
     exists q',
       push Size item q = (true, q') /\
       m_head q' = (m_head q + 1) mod 2 ^ 64 /\
       m_tail q' = m_tail q /\
       m_data q' !! Z.to_nat (m_head q mod Size) = Some item /\
       (forall i, i <> Z.to_nat (m_head q mod Size) ->
                  m_data q' !! i = m_data q !! i)) /\
  (m_tail q = m_head q -> pop Size item q = (false, item, q)) /\
  (m_tail q <> m_head q ->
     exists x,
       m_data q !! Z.to_nat (m_tail q mod Size) = Some x /\
       pop Size item q
       = (true, x, mkQueue (m_data q) (m_head q) ((m_tail q + 1) mod 2 ^ 64))) /\
  (forall (event : GpioIrqEvent) (g : LockFreeRingBuffer GpioIrqEvent),
      g_event_buffer_size <= (m_head g - m_tail g) mod 2 ^ 64 ->
      my_irq_callback event g = g).
Proof.
  intros HSize (Hh & Ht & Hlen).
  assert (Hslot : forall c, (Z.to_nat (c mod Size) < length (m_data q))%nat).
  { intros c. rewrite Hlen. pose proof (Z.mod_pos_bound c Size HSize). lia. }
  split; [|split; [|split; [|split]]].
  - intros Hfull. unfold push, wrap64.
    destruct (Z.leb_spec Size ((m_head q - m_tail q) mod 2 ^ 64)); [done | lia].
  - intros Hroom. unfold push, wrap64.
    destruct (Z.leb_spec Size ((m_head q - m_tail q) mod 2 ^ 64)); [lia|].
    eexists. split; [reflexivity|]. cbn [m_head m_tail m_data].
    split; [done|]. split; [done|]. split.
    + by apply list_lookup_insert_eq.
    + intros i Hi. by apply list_lookup_insert_ne.
  - intros Hempty. unfold pop. rewrite Hempty. by rewrite Z.eqb_refl.
  - intros Hne. unfold pop.
    destruct (Z.eqb_spec (m_tail q) (m_head q)); [done|].
    exists (m_data q !!! Z.to_nat (m_tail q mod Size)).
    split; [|done]. by apply list_lookup_lookup_total_lt.
  - intros event g Hfull. unfold my_irq_callback, push, wrap64.
    destruct (Z.leb_spec g_event_buffer_size ((m_head g - m_tail g) mod 2 ^ 64));
      [done | lia].
Qed.

Lemma queue_push_drops_newest_when_full_witness :
  push 4 9 (mkQueue [1; 2; 3; 4] 4 0) = (false, mkQueue [1; 2; 3; 4] 4 0) /\
  push 4 9 (mkQueue [1; 2; 3; 4] 5 2) = (true, mkQueue [1; 9; 3; 4] 6 2) /\
  pop 4 0 (mkQueue [1; 2; 3; 4] 5 2) = (true, 3, mkQueue [1; 2; 3; 4] 5 3).
Proof.
  split; [|split; [reflexivity | reflexivity]].
  refine (proj1 (queue_push_drops_newest_when_full 4 (mkQueue [1; 2; 3; 4] 4 0) 9
                   _ _) _).
  - lia.
  - repeat split; vm_compute; congruence.
  - vm_compute. congruence.
Defined.

(** ** The wire layout *)

(** C7.  The structures of the kernel module and of the listener's headers
    do not agree.  [GpioIrqEvent] in [kernel_module/rpi_fast_irq.c] has no
    member [pin_state]: both sides are 16 bytes, [timestamp_ns] and
    [event_counter] sit at offsets 0 and 8 on both, but bytes 12..15 are the
    member [pin_state] for the listener and padding for the kernel.
    [SharedRingBuffer] in [CountsPerSecond_Plot/RpiFastIrq.hpp] has no
    member [events]: 8 bytes against the kernel's 4104.  The module before
    that change and [CountsPerSecond/RpiFastIrq.hpp] do agree. *)
Theorem kernel_and_listener_layouts_diverge :
  Wire.layout Wire.kernel_GpioIrqEvent
  = [("timestamp_ns", (0, 8)); ("event_counter", (8, 4))] /\
  Wire.layout Wire.cpp_GpioIrqEvent
  = [("timestamp_ns", (0, 8)); ("event_counter", (8, 4)); ("pin_state", (12, 4))] /\
  Wire.sizeof Wire.kernel_GpioIrqEvent = 16 /\
  Wire.sizeof Wire.cpp_GpioIrqEvent = 16 /\
  Wire.padding Wire.kernel_GpioIrqEvent = 4 /\
  Wire.padding Wire.cpp_GpioIrqEvent = 0 /\
  Wire.offset_of "pin_state" (Wire.layout Wire.kernel_GpioIrqEvent) = None /\
  ~ Wire.same_layout Wire.kernel_GpioIrqEvent Wire.cpp_GpioIrqEvent /\
  Wire.layout Wire.kernel_SharedRingBuffer
  = [("head", (0, 4)); ("tail", (4, 4)); ("events", (8, 4096))] /\
  Wire.layout Wire.plot_SharedRingBuffer = [("head", (0, 4)); ("tail", (4, 4))] /\
  Wire.sizeof Wire.kernel_SharedRingBuffer = 4104 /\
  Wire.sizeof Wire.plot_SharedRingBuffer = 8 /\
  ~ Wire.same_layout Wire.kernel_SharedRingBuffer Wire.plot_SharedRingBuffer /\
  Wire.same_layout Wire.kernel_prev_GpioIrqEvent Wire.cpp_GpioIrqEvent /\
  Wire.same_layout Wire.kernel_prev_SharedRingBuffer Wire.cpp_SharedRingBuffer.
Proof.
  unfold Wire.same_layout.
  repeat split; try (vm_compute; congruence); intros (E & _); vm_compute in E;
    discriminate E.
Qed.

(* ===================================================================== *)
(** * More of the code *)
(* ===================================================================== *)

(** ** The length of the mapping *)

Lemma clear_low_bits x k :
  0 <= k -> Z.land x (Z.lnot (2 ^ k - 1)) = x / 2 ^ k * 2 ^ k.
Proof.
  intros Hk. rewrite <- Z.ldiff_land.
  replace (2 ^ k - 1) with (Z.ones k) by (rewrite Z.ones_equiv; lia).
  rewrite Z.ldiff_ones_r by done.
  by rewrite Z.shiftl_mul_pow2, Z.shiftr_div_pow2.
Qed.

(** X1.  For a page size that is a power of two, the length [start] asks
    [mmap] for is a whole number of pages, covers the structure, and
    exceeds it by less than a page. *)
Theorem page_round_up_covers_the_structure (size k : Z) :
  0 <= k -> 0 <= size -> size + 2 ^ k <= 2 ^ 64 ->
  let len := page_round_up size (2 ^ k) in
  len mod 2 ^ k = 0 /\ size <= len < size + 2 ^ k.
Proof.
  intros Hk Hsize Hfit len. unfold len, page_round_up.
  rewrite clear_low_bits by done.
  assert (HP : 0 < 2 ^ k) by (apply Z.pow_pos_nonneg; lia).
  set (P := 2 ^ k) in *. set (x := size + P - 1).
  pose proof (Z.div_mod x P ltac:(lia)) as Hdm.
  pose proof (Z.mod_pos_bound x P HP) as Hm.
  assert (E : x / P * P = x - x mod P) by lia.
  assert (Hr : 0 <= x / P * P < 2 ^ 64) by (unfold x in *; lia).
  unfold wrap64. rewrite (Z.mod_small _ _ Hr).
  split; [apply Z.mod_mul; lia | unfold x in *; lia].
Qed.

Lemma page_round_up_covers_the_structure_witness :
  page_round_up sizeof_SharedRingBuffer 4096 = 8192 /\
  8192 mod 4096 = 0 /\ sizeof_SharedRingBuffer <= 8192.
Proof.
  pose proof (page_round_up_covers_the_structure sizeof_SharedRingBuffer 12)
    as W.
  cbv zeta in W. destruct W as [Hm Hb].
  - lia.
  - vm_compute. discriminate.
  - vm_compute. discriminate.
  - split; [reflexivity|]. split; [exact Hm | exact (proj1 Hb)].
Defined.

(** ** What a listener holds over its life *)

(** X2.  Whatever sequence of [start] and [stop] calls a program makes,
    the process holds for the listener either nothing or exactly one
    descriptor, one mapping and one thread (the ones the members name), and
    no call ever released something that was not held. *)
Theorem listener_holds_all_or_nothing
    {U} (v : variant) (l : RpiFastIrq U) (w : world) :
  reachable v (l, w) ->
  faults (held w) = 0%nat /\
  (m_running l = true /\
   fds (held w) = [m_fd l] /\ 0 <= m_fd l /\
   maps (held w) = [m_shared_buf l] /\ is_mapped (m_shared_buf l) = true /\
   threads (held w) = 1%nat
   \/
   m_running l = false /\ held w = no_resources /\
   m_fd l = -1 /\ is_mapped (m_shared_buf l) = false).
Proof.
  intros Hreach. pose proof (reachable_inv _ _ _ Hreach) as Hinv.
  unfold lifecycle_inv, idle in Hinv. destruct (m_running l).
  - destruct Hinv as (Hfd & Hmap & _ & ->). cbn. split; [done|]. left. tauto.
  - destruct Hinv as ((_ & Hfd & Hmap & _) & ->). cbn. split; [done|].
    right. tauto.
Qed.

Lemma listener_holds_all_or_nothing_witness :
  fds (held running_listener.2) = [3] /\
  threads (held running_listener.2) = 1%nat /\
  faults (held running_listener.2) = 0%nat.
Proof.
  pose proof (listener_holds_all_or_nothing V2 running_listener.1
                running_listener.2) as W.
  destruct W as (Hfaults & [(_ & Hfds & _ & _ & _ & Hth) | (Hr & _)]).
  - apply (reach_start V2 env_attached (Some record_cb) fresh_listener []).
    + apply reach_new.
    + split; [vm_compute; congruence | discriminate].
  - split; [exact Hfds|]. split; [exact Hth | exact Hfaults].
  - discriminate Hr.
Defined.

(** X3.  A listener that was stopped can be started again: after [stop],
    a [start] to which the system grants the descriptor and the mapping
    returns true, runs the new callback, and the process holds exactly the
    new descriptor, the new mapping and one thread. *)
Theorem stopped_listener_restarts
    {U} (v : variant) (env : start_env) (cb : IrqCallback U)
    (l : RpiFastIrq U) (w : world) :
  reachable v (l, w) -> posix env ->
  0 <= open_result env -> mmap_result env <> MAP_FAILED ->
  let '(l1, w1) := stop l w in
  let '(ok, l2, w2) := start v env cb l1 w1 in
  ok = true /\ m_running l2 = true /\ m_callback l2 = cb /\
  m_fd l2 = open_result env /\ m_shared_buf l2 = mmap_result env /\
  held w2 = mkResources [open_result env] [mmap_result env] 1 0.
Proof.
  intros Hreach Hposix Hfd Hmap.
  pose proof (reach_stop v l w Hreach) as Hreach1.
  pose proof (lifecycle_inv_stop l w (reachable_inv _ _ _ Hreach)) as Hinv1.
  destruct (stop l w) as [l1 w1] eqn:Estop. cbn [fst snd] in Hinv1.
  assert (Hr1 : m_running l1 = false).
  { replace l1 with (stop l w).1 by (by rewrite Estop).
    destruct (m_running l) eqn:Hr.
    - by rewrite stop_running by (done || by apply reachable_inv with v).
    - by rewrite stop_idle. }
  pose proof (lifecycle_inv_start v env cb l1 w1 Hposix Hinv1) as Hinv2.
  rewrite start_succeeds in * by done. cbn [fst snd] in Hinv2.
  unfold lifecycle_inv in Hinv2. cbn in Hinv2. cbn. tauto.
Qed.

Lemma stopped_listener_restarts_witness :
  let r := stop running_listener.1 running_listener.2 in
  (start V2 env_attached None r.1 r.2).1.1 = true.
Proof.
  pose proof (stopped_listener_restarts V2 env_attached None
                running_listener.1 running_listener.2) as W.
  destruct (stop running_listener.1 running_listener.2) as [l1 w1] eqn:E.
  cbn [fst snd].
  destruct (start V2 env_attached None l1 w1) as [[ok l2] w2].
  destruct W as (Hok & _).
  - apply (reach_start V2 env_attached (Some record_cb) fresh_listener []).
    + apply reach_new.
    + split; [vm_compute; congruence | discriminate].
  - split; [vm_compute; congruence | discriminate].
  - vm_compute. discriminate.
  - discriminate.
  - exact Hok.
Defined.

(** ** Loading and unloading the module *)

(** X4.  [rpi_fast_irq_init] returns 0 exactly when the region was
    allocated, the device numbers were granted, the pin is valid and the
    interrupt was granted.  On every other path it returns a negative
    value having released, label by label, everything it had acquired:
    nothing stays held and nothing is released that was not held.  After a
    successful load, [rpi_fast_irq_exit] releases all seven resources. *)
Theorem module_init_releases_what_it_acquired (env : init_env) :
  let r := (rpi_fast_irq_init_run env).1 in
  let calls := (rpi_fast_irq_init_run env).2 in
  (r = 0 <->
   vmalloc_user_ok env = true /\ 0 <= alloc_chrdev_region_result env /\
   gpio_is_valid env = true /\ request_irq_result env = 0) /\
  (r <> 0 -> r < 0 /\ kheld calls = ([], 0%nat)) /\
  (r = 0 ->
   kheld calls
   = ([KIrq; KGpio; KDevice; KClass; KCdev; KChrdev; KRegion], 0%nat) /\
   kheld (calls ++ rpi_fast_irq_exit_run) = ([], 0%nat)).
Proof.
  destruct env as [vm chr gp irq]. unfold rpi_fast_irq_init_run.
  cbn [vmalloc_user_ok alloc_chrdev_region_result gpio_is_valid
       request_irq_result].
  assert (Hfail : forall (r : Z) (calls : list kcall) (P : Prop),
             r < 0 -> ~ P -> kheld calls = ([], 0%nat) ->
             (r = 0 <-> P) /\
             (r <> 0 -> r < 0 /\ kheld calls = ([], 0%nat)) /\
             (r = 0 ->
              kheld calls
              = ([KIrq; KGpio; KDevice; KClass; KCdev; KChrdev; KRegion], 0%nat) /\
              kheld (calls ++ rpi_fast_irq_exit_run) = ([], 0%nat))).
  { intros r calls P Hr HP Hk. split; [split; [lia | tauto]|].
    split; [tauto | lia]. }
  destruct vm; cbn [negb].
  2: { cbv zeta; cbn [fst snd].
       apply Hfail; [unfold ENOMEM; lia | intros (? & _); discriminate | done]. }
  destruct (Z.ltb_spec chr 0).
  { cbv zeta; cbn [fst snd].
    apply Hfail; [lia | intros (_ & ? & _); lia | by vm_compute]. }
  destruct gp; cbn [negb].
  2: { cbv zeta; cbn [fst snd].
       apply Hfail; [lia | intros (_ & _ & ? & _); discriminate | by vm_compute]. }
  destruct (Z.eqb_spec irq 0); cbn [negb]; cbv zeta; cbn [fst snd].
  - split; [tauto|]. split; [done|]. intros _. split; by vm_compute.
  - apply Hfail; [lia | tauto | by vm_compute].
Qed.

(** ** The thread's loop over many wake-ups *)



(** ** The callbacks of the monitors *)

Lemma feed_snoc {U} (cb : IrqCallback U) es e u :
  feed cb (es ++ [e]) u = dispatch cb e (feed cb es u).
Proof. unfold feed. by rewrite fold_left_app. Qed.

Lemma feed_pulse es c :
  is_u32 c -> feed (Some pulse_callback) es c = wrap32 (c + Z.of_nat (length es)).
Proof.
  intros Hc. induction es as [|e es IH] using rev_ind.
  - simpl. by rewrite Z.add_0_r, wrap32_id.
  - rewrite feed_snoc, IH, length_app. simpl. unfold pulse_callback.
    rewrite wrap32_succ. f_equal. lia.
Qed.

(** X6.  With the counting callback of the CPS monitor, a drain pass adds
    to [g_pulse_count] the number of records between the local tail and
    the head, modulo 2^32; the tick of the main loop then reads that value
    and leaves the counter at 0. *)
Theorem pulse_count_counts_the_records_of_a_pass
    (sb : SharedRingBuffer) (T g_pulse_count : Z) (fuel : nat) :
  is_u32 (head sb) -> is_u32 T -> is_u32 g_pulse_count ->
  (Z.to_nat ((head sb - T) mod 2 ^ 32) <= fuel)%nat ->
  exists count',
    drain_pass fuel (Some pulse_callback) sb T g_pulse_count
    = Some (set_tail sb (head sb), head sb, count') /\
    pulse_tick count'
    = ((g_pulse_count + (head sb - T) mod 2 ^ 32) mod 2 ^ 32, 0).
Proof.
  intros Hh HT Hc Hfuel. eexists. split.
  - by apply drain_pass_spec.
  - unfold deliver. rewrite feed_pulse by done.
    rewrite length_fmap, counts_length. unfold pulse_tick, available.
    do 2 f_equal. rewrite Z2Nat.id; [done|].
    apply Z.mod_pos_bound. lia.
Qed.

Lemma pulse_count_counts_the_records_of_a_pass_witness :
  exists count',
    drain_pass 10 (Some pulse_callback) (Mapped.shared_buf ten_published) 0 0
    = Some (set_tail (Mapped.shared_buf ten_published) 10, 10, count') /\
    pulse_tick count' = (10, 0).
Proof.
  refine (pulse_count_counts_the_records_of_a_pass
            (Mapped.shared_buf ten_published) 0 0 10 _ _ _ _).
  - vm_compute. split; [discriminate | reflexivity].
  - vm_compute. split; [discriminate | reflexivity].
  - vm_compute. split; [discriminate | reflexivity].
  - vm_compute. lia.
Defined.

Lemma feed_latest es e u :
  last es = Some e ->
  feed (Some latest_callback) es u = (timestamp_ns e, event_counter e).
Proof.
  destruct es as [|e' es] using rev_ind; [done|].
  rewrite last_snoc. intros [= ->]. by rewrite feed_snoc.
Qed.

(** X7.  With the callback of the timestamp-based monitors, a pass over at
    least one new record leaves in [g_latest_timestamp_ns] and
    [g_latest_event_counter] the timestamp and the sequence number of the
    newest record: the last interrupt's time, and the interrupt counter
    after it. *)
Theorem latest_callback_keeps_the_newest_record
    (k : Mapped.kernel) (inputs : list (Z * Z)) (newest : Z * Z)
    (fuel : nat) (g : Z * Z) :
  shared_wf (Mapped.shared_buf k) ->
  is_u32 (Mapped.total_interrupts k) ->
  Z.of_nat (length inputs) <= KBUF_SIZE ->
  (length inputs <= fuel)%nat ->
  last inputs = Some newest ->
  let k' := Mapped.publish_all inputs k in
  drain_pass fuel (Some latest_callback) (Mapped.shared_buf k')
    (head (Mapped.shared_buf k)) g
  = Some (set_tail (Mapped.shared_buf k') (head (Mapped.shared_buf k')),
          head (Mapped.shared_buf k'),
          (newest.1, Mapped.total_interrupts k')).
Proof.
  intros (Hh & Ht & Hlen) Htot Hn Hfuel Hlast k'.
  unfold k'. rewrite publish_then_drain by done. do 2 f_equal.
  rewrite publish_all_total by done.
  destruct inputs as [|x inputs] using rev_ind; [done|].
  rewrite last_snoc in Hlast. injection Hlast as ->.
  unfold Mapped.published_all. rewrite imap_app. simpl.
  rewrite feed_snoc. simpl. unfold latest_callback, Mapped.published. simpl.
  rewrite length_app. simpl. do 2 f_equal. lia.
Qed.

Lemma latest_callback_keeps_the_newest_record_witness :
  drain_pass 10 (Some latest_callback) (Mapped.shared_buf ten_published) 0 (0, 0)
  = Some (set_tail (Mapped.shared_buf ten_published) 10, 10, (10000, 10)).
Proof.
  refine (latest_callback_keeps_the_newest_record Mapped.rpi_fast_irq_init
            ten_inputs (10000, 1) 10 (0, 0) _ _ _ _ _).
  - repeat split; vm_compute; congruence.
  - vm_compute. split; [discriminate | reflexivity].
  - vm_compute. discriminate.
  - simpl. lia.
  - reflexivity.
Defined.

(** ** The consumer loop of the benchmark *)

Lemma capture_all_snoc es e c :
  capture_all (es ++ [e]) c = capture_event (capture_all es c) e.
Proof. unfold capture_all. by rewrite fold_left_app. Qed.

(** One event after a previous one with a non-zero counter: the dropped
    count grows by the gap between the two counters, less one. *)
Lemma capture_event_dropped c e :
  last_counter c <> 0 -> is_u32 (last_counter c) ->
  is_u32 (dropped_events c) -> is_u32 (event_counter e) ->
  dropped_events (capture_event c e)
  = wrap32 (dropped_events c + event_counter e - last_counter c - 1).
Proof.
  unfold capture_event, wrap32, is_u32. intros Hnz Hlc Hd He. cbn [dropped_events].
  destruct (Z.eqb_spec (last_counter c) 0); [done|]. cbn [negb andb].
  destruct (Z.eqb_spec (event_counter e) ((last_counter c + 1) mod 2 ^ 32));
    cbn [negb].
  - revert e0. Z.div_mod_to_equations. lia.
  - Z.div_mod_to_equations. lia.
Qed.

Lemma capture_all_dropped es c :
  last_counter c <> 0 -> is_u32 (last_counter c) ->
  is_u32 (dropped_events c) ->
  Forall (fun e => event_counter e <> 0 /\ is_u32 (event_counter e)) es ->
  let c' := capture_all es c in
  last_counter c' <> 0 /\ is_u32 (last_counter c') /\
  is_u32 (dropped_events c') /\
  last_counter c' = default (last_counter c) (event_counter <$> last es) /\
  dropped_events c'
  = wrap32 (dropped_events c + last_counter c' - last_counter c
            - Z.of_nat (length es)).
Proof.
  intros Hnz Hlc Hd. induction es as [|e es IH] using rev_ind; intros Hall c'.
  - unfold c'. cbn [capture_all fold_left last fmap option_fmap option_map
                    default length].
    split; [done|]. split; [done|]. split; [done|]. split; [done|].
    replace (dropped_events c + last_counter c - last_counter c - Z.of_nat 0)
      with (dropped_events c) by lia.
    by rewrite wrap32_id.
  - apply Forall_app in Hall as [Hes He]. apply Forall_singleton in He as [He0 He].
    destruct (IH Hes) as (Hnz' & Hlc' & Hd' & _ & Hdrop).
    unfold c'. rewrite capture_all_snoc.
    split; [done|]. split; [done|].
    split; [rewrite capture_event_dropped by done; apply wrap32_range|].
    split; [by rewrite last_snoc|].
    rewrite capture_event_dropped by done. rewrite Hdrop.
    cbn [last_counter capture_event]. rewrite length_app. cbn [length].
    rewrite Nat2Z.inj_add. unfold wrap32. Z.div_mod_to_equations. lia.
Qed.

(** X8.  Fed a run of events whose sequence numbers are all non-zero, the
    benchmark's loop ends with [dropped_events] equal to the distance from
    the first sequence number to the last, less the number of events that
    followed the first, modulo 2^32: the count of sequence numbers it did
    not see in between.  The first event never counts as a drop. *)
Theorem benchmark_counts_missing_sequence_numbers
    (first newest : GpioIrqEvent) (rest : list GpioIrqEvent) :
  Forall (fun e => event_counter e <> 0 /\ is_u32 (event_counter e))
    (first :: rest) ->
  last (first :: rest) = Some newest ->
  let c := capture_all (first :: rest) capture_start in
  last_counter c = event_counter newest /\
  dropped_events c
  = (event_counter newest - event_counter first - Z.of_nat (length rest))
      mod 2 ^ 32.
Proof.
  intros Hall Hlast c. apply Forall_cons in Hall as [[Hnz Hu] Hrest].
  set (c1 := capture_event capture_start first).
  assert (Ec : c = capture_all rest c1) by reflexivity.
  assert (Hd1 : dropped_events c1 = 0) by reflexivity.
  assert (Hl1 : last_counter c1 = event_counter first) by reflexivity.
  destruct (capture_all_dropped rest c1) as (_ & _ & _ & Hlc & Hdrop);
    [by rewrite Hl1 | by rewrite Hl1 | by rewrite Hd1 | done |].
  rewrite <- Ec in Hlc, Hdrop.
  assert (Hn : last_counter c = event_counter newest).
  { rewrite Hlc, Hl1. destruct rest as [|e rest].
    - by injection Hlast as ->.
    - change (last (first :: e :: rest)) with (last (e :: rest)) in Hlast.
      by rewrite Hlast. }
  split; [done|]. rewrite Hdrop, Hd1, Hn, Hl1. unfold wrap32. f_equal; lia.
Qed.

Lemma benchmark_counts_missing_sequence_numbers_witness :
  dropped_events
    (capture_all [mkEvent 100 7 1; mkEvent 200 8 1; mkEvent 500 11 1;
                  mkEvent 600 12 1] capture_start) = 2.
Proof.
  refine (proj2 (benchmark_counts_missing_sequence_numbers
                   (mkEvent 100 7 1) (mkEvent 600 12 1)
                   [mkEvent 200 8 1; mkEvent 500 11 1; mkEvent 600 12 1] _ _)).
  - repeat constructor; vm_compute; congruence.
  - reflexivity.
Defined.

Lemma capture_all_deltas es c :
  last_timestamp c <> 0 ->
  Forall (fun e => timestamp_ns e <> 0) es ->
  deltas (capture_all es c)
  = deltas c ++ consecutive_deltas (last_timestamp c) es.
Proof.
  revert c. induction es as [|e es IH]; intros c Hnz Hall.
  - cbn. by rewrite app_nil_r.
  - apply Forall_cons in Hall as [He Hes].
    change (capture_all (e :: es) c) with (capture_all es (capture_event c e)).
    rewrite IH by done. unfold capture_event. cbn [deltas last_timestamp].
    destruct (Z.eqb_spec (last_timestamp c) 0); [done|]. cbn [negb].
    by rewrite <- app_assoc.
Qed.

(** X9.  Fed a run of events whose timestamps are all non-zero, the
    benchmark's loop records one delta per event after the first, each the
    difference to the previous event's timestamp in [uint64_t], in order;
    the first event records none. *)
Theorem benchmark_deltas_are_consecutive_differences
    (first : GpioIrqEvent) (rest : list GpioIrqEvent) :
  Forall (fun e => timestamp_ns e <> 0) (first :: rest) ->
  let c := capture_all (first :: rest) capture_start in
  deltas c = consecutive_deltas (timestamp_ns first) rest /\
  length (deltas c) = length rest.
Proof.
  intros Hall c. apply Forall_cons in Hall as [Hnz Hrest].
  assert (E : deltas c = consecutive_deltas (timestamp_ns first) rest).
  { unfold c.
    change (capture_all (first :: rest) capture_start)
      with (capture_all rest (capture_event capture_start first)).
    by rewrite capture_all_deltas. }
  split; [done|]. rewrite E. clear. generalize (timestamp_ns first).
  induction rest as [|e rest IH]; intros prev; [done|]. simpl. by rewrite IH.
Qed.

Lemma benchmark_deltas_are_consecutive_differences_witness :
  deltas
    (capture_all [mkEvent 100 7 1; mkEvent 200 8 1; mkEvent 500 11 1;
                  mkEvent 600 12 1] capture_start) = [100; 300; 100].
Proof.
  refine (proj1 (benchmark_deltas_are_consecutive_differences
                   (mkEvent 100 7 1)
                   [mkEvent 200 8 1; mkEvent 500 11 1; mkEvent 600 12 1] _)).
  repeat constructor; vm_compute; congruence.
Defined.

(** ** The mapped region when the producer runs ahead *)

(** Of any run of interrupts, the last [KBUF_SIZE] records are in their
    slots. *)
Lemma publish_all_slot_recent l k i x :
  is_u32 (head (Mapped.shared_buf k)) ->
  is_u32 (Mapped.total_interrupts k) ->
  length (events (Mapped.shared_buf k)) = Z.to_nat KBUF_SIZE ->
  l !! i = Some x ->
  Z.of_nat (length l) <= Z.of_nat i + KBUF_SIZE ->
  slot (Mapped.shared_buf (Mapped.publish_all l k))
       (head (Mapped.shared_buf k) + Z.of_nat i)
  = Mapped.published (Mapped.total_interrupts k) i x.
Proof.
  intros Hh Ht Hlen. revert i x.
  induction l as [|y l IH] using rev_ind; intros i x Hi Hn; [done|].
  rewrite length_app in Hn. simpl in Hn.
  rewrite publish_all_snoc.
  unfold Mapped.gpio_isr, slot, store_slot.
  cbn [events set_events set_head Mapped.shared_buf].
  rewrite publish_all_head, publish_all_total, slot_of_wrap32 by done.
  apply lookup_snoc_Some in Hi as [[Hlt Hi]|[-> ->]].
  - rewrite list_lookup_total_insert_ne by (apply slots_apart; lia).
    apply IH; [done | lia].
  - rewrite list_lookup_total_insert_eq.
    + unfold Mapped.published. rewrite wrap32_succ. reflexivity.
    + rewrite publish_all_length, Hlen. apply slot_index_bound.
Qed.

(** X10.  The mapped producer never waits for the listener.  After any
    number [n] of interrupts without a pass in between, the pass invokes
    the callback [n] times, but what it reads for the [i]-th count is the
    record of the newest interrupt that used the same slot, number
    [i + 256 * ((n - 1 - i) / 256)]: with more than [KBUF_SIZE] interrupts
    the oldest records are gone, and the ones that overwrote them are
    delivered in their place. *)
Theorem overrun_delivers_the_overwriting_records
    {U} (cb : IrqCallback U) (k : Mapped.kernel) (inputs : list (Z * Z))
    (fuel : nat) (u : U) :
  shared_wf (Mapped.shared_buf k) ->
  is_u32 (Mapped.total_interrupts k) ->
  Z.of_nat (length inputs) < 2 ^ 32 ->
  (length inputs <= fuel)%nat ->
  let n := length inputs in
  let sb' := Mapped.shared_buf (Mapped.publish_all inputs k) in
  exists evs,
    drain_pass fuel cb sb' (head (Mapped.shared_buf k)) u
    = Some (set_tail sb' (head sb'), head sb', feed cb evs u) /\
    length evs = n /\
    forall i, (i < n)%nat ->
      exists j x,
        Z.of_nat j
        = Z.of_nat i + KBUF_SIZE * ((Z.of_nat n - 1 - Z.of_nat i) / KBUF_SIZE) /\
        inputs !! j = Some x /\
        evs !! i = Some (Mapped.published (Mapped.total_interrupts k) j x).
Proof.
  intros (Hh & Ht & Hlen) Htot Hn Hfuel n sb'.
  set (T := head (Mapped.shared_buf k)).
  assert (Hav : available (head sb') T = n).
  { unfold sb'. rewrite publish_all_head by done. by apply available_after. }
  exists (slot sb' <$> counts T n). split; [|split].
  - rewrite drain_pass_spec; [by rewrite Hav | | done | lia].
    unfold sb'. rewrite publish_all_head by done. apply wrap32_range.
  - by rewrite length_fmap, counts_length.
  - intros i Hi.
    set (q := (Z.of_nat n - 1 - Z.of_nat i) / KBUF_SIZE).
    assert (Hq : 0 <= q /\ Z.of_nat i + KBUF_SIZE * q < Z.of_nat n /\
                 Z.of_nat n <= Z.of_nat i + KBUF_SIZE * q + KBUF_SIZE).
    { unfold q, KBUF_SIZE. Z.div_mod_to_equations. lia. }
    exists (Z.to_nat (Z.of_nat i + KBUF_SIZE * q)).
    destruct (lookup_lt_is_Some_2 inputs (Z.to_nat (Z.of_nat i + KBUF_SIZE * q)))
      as [x Hx]; [fold n; lia|].
    exists x. split; [lia|]. split; [done|].
    rewrite list_lookup_fmap, counts_lookup by done. simpl. f_equal.
    rewrite slot_wrap32.
    rewrite <- (publish_all_slot_recent inputs k _ x Hh Htot Hlen Hx)
      by (fold n; lia).
    unfold slot, sb', T. do 2 f_equal.
    rewrite Z2Nat.id by lia.
    replace (head (Mapped.shared_buf k) + (Z.of_nat i + KBUF_SIZE * q))
      with (head (Mapped.shared_buf k) + Z.of_nat i + q * KBUF_SIZE) by lia.
    by rewrite Z.mod_add by (unfold KBUF_SIZE; lia).
Qed.

Lemma overrun_delivers_the_overwriting_records_witness :
  let sb' :=
    Mapped.shared_buf (Mapped.publish_all overrun_inputs Mapped.rpi_fast_irq_init) in
  exists evs,
    drain_pass 261 (Some record_cb) sb' 0 []
    = Some (set_tail sb' (head sb'), head sb', feed (Some record_cb) evs []) /\
    length evs = 261%nat /\
    evs !! 0%nat = Some (mkEvent 257 257 1).
Proof.
  destruct (overrun_delivers_the_overwriting_records (Some record_cb)
              Mapped.rpi_fast_irq_init overrun_inputs 261 [])
    as (evs & Hpass & Hlen & Hwhich).
  - repeat split; vm_compute; congruence.
  - vm_compute. split; [discriminate | reflexivity].
  - vm_compute. reflexivity.
  - vm_compute. lia.
  - exists evs. split; [exact Hpass|]. split; [exact Hlen|].
    destruct (Hwhich 0%nat) as (j & x & Hj & Hx & Hev); [vm_compute; lia|].
    assert (j = 256%nat) as ->.
    { apply Nat2Z.inj. rewrite Hj. vm_compute. reflexivity. }
    vm_compute in Hx. injection Hx as <-. exact Hev.
Defined.

(** X11.  The driver's [poll] follows the cursors.  With the listener
    caught up it reports nothing; after one or more interrupts (fewer than
    2^32) it reports [POLLIN | POLLRDNORM]; after the listener's next pass
    it reports nothing again. *)
Theorem poll_reports_readable_until_drained
    {U} (cb : IrqCallback U) (k : Mapped.kernel) (inputs : list (Z * Z))
    (fuel : nat) (u : U) :
  shared_wf (Mapped.shared_buf k) ->
  tail (Mapped.shared_buf k) = head (Mapped.shared_buf k) ->
  inputs <> [] -> Z.of_nat (length inputs) < 2 ^ 32 ->
  (length inputs <= fuel)%nat ->
  let k' := Mapped.publish_all inputs k in
  Mapped.dev_poll k = 0 /\
  Mapped.dev_poll k' = Z.lor POLLIN POLLRDNORM /\
  Z.land (Mapped.dev_poll k') POLLIN <> 0 /\
  exists sb'' T' u',
    drain_pass fuel cb (Mapped.shared_buf k') (head (Mapped.shared_buf k)) u
    = Some (sb'', T', u') /\
    Mapped.dev_poll (Mapped.mkKernel sb'' (Mapped.total_interrupts k')) = 0.
Proof.
  intros (Hh & Ht & Hlen) Hcaught Hne Hn Hfuel k'.
  assert (Hhead : head (Mapped.shared_buf k') <> tail (Mapped.shared_buf k')).
  { unfold k'. rewrite publish_all_head, publish_all_tail, Hcaught by done.
    assert (0 < Z.of_nat (length inputs)) by (destruct inputs; [done | simpl; lia]).
    unfold wrap32, is_u32 in *. Z.div_mod_to_equations. lia. }
  assert (Hpoll : Mapped.dev_poll k' = Z.lor POLLIN POLLRDNORM).
  { unfold Mapped.dev_poll.
    by destruct (Z.eqb_spec (head (Mapped.shared_buf k'))
                   (tail (Mapped.shared_buf k'))). }
  split; [unfold Mapped.dev_poll; by rewrite Hcaught, Z.eqb_refl|].
  split; [done|]. split; [by rewrite Hpoll|].
  assert (Hav : available (head (Mapped.shared_buf k')) (head (Mapped.shared_buf k))
                = length inputs).
  { unfold k'. rewrite publish_all_head by done. by apply available_after. }
  eexists _, _, _. split.
  - apply drain_pass_spec; [|done|lia].
    unfold k'. rewrite publish_all_head by done. apply wrap32_range.
  - unfold Mapped.dev_poll. cbn. by rewrite Z.eqb_refl.
Qed.

Lemma poll_reports_readable_until_drained_witness :
  Mapped.dev_poll Mapped.rpi_fast_irq_init = 0 /\
  Mapped.dev_poll ten_published = 65.
Proof.
  destruct (poll_reports_readable_until_drained (Some record_cb)
              Mapped.rpi_fast_irq_init ten_inputs 10 [])
    as (H0 & H1 & _).
  - repeat split; vm_compute; congruence.
  - reflexivity.
  - discriminate.
  - vm_compute. reflexivity.
  - simpl. lia.
  - split; [exact H0 | exact H1].
Defined.

(** ** The spinlock buffer as a queue *)

Lemma spin_wf_init : spin_wf Spinlock.module_init.
Proof.
  unfold spin_wf, is_u32, KBUF_SIZE. cbn [Spinlock.module_init Spinlock.k_head
    Spinlock.k_tail Spinlock.k_buffer Spinlock.total_interrupts].
  rewrite length_replicate. repeat split; lia.
Qed.

Lemma spin_wf_isr ts state k :
  spin_wf k -> spin_wf (Spinlock.gpio_isr ts state k).
Proof.
  unfold spin_wf, Spinlock.gpio_isr, KBUF_SIZE. intros (Hh & Ht & Hlen & Htot).
  cbn [Spinlock.k_head Spinlock.k_tail Spinlock.k_buffer Spinlock.total_interrupts].
  rewrite length_insert.
  split; [apply Z.mod_pos_bound; lia|].
  split; [|split; [done | apply wrap32_range]].
  destruct (_ =? _); [apply Z.mod_pos_bound; lia | done].
Qed.

Lemma spin_wf_read len ok k :
  spin_wf k -> spin_wf (Spinlock.dev_read len ok k).2.
Proof.
  unfold spin_wf, Spinlock.dev_read, KBUF_SIZE. intros (Hh & Ht & Hlen & Htot).
  destruct (len <? _); [done|].
  destruct ok; cbn [snd Spinlock.k_head Spinlock.k_tail Spinlock.k_buffer
                    Spinlock.total_interrupts];
    (split; [done|]; split; [apply Z.mod_pos_bound; lia | done]).
Qed.

Lemma spin_wf_reachable k :
  Spinlock.reachable k -> spin_wf k.
Proof.
  induction 1; auto using spin_wf_init, spin_wf_isr, spin_wf_read.
Qed.

(** X12.  In every state the spinlock module can reach, both cursors are
    indices inside [k_buffer]: the handler and [dev_read] never index
    outside the array, and the interrupt counter stays a [u32]. *)
Theorem spinlock_cursors_stay_inside_the_buffer (k : Spinlock.kernel) :
  Spinlock.reachable k ->
  (Z.to_nat (Spinlock.k_head k) < length (Spinlock.k_buffer k))%nat /\
  (Z.to_nat (Spinlock.k_tail k) < length (Spinlock.k_buffer k))%nat /\
  0 <= Spinlock.k_head k < KBUF_SIZE /\
  0 <= Spinlock.k_tail k < KBUF_SIZE /\
  length (Spinlock.k_buffer k) = 256%nat /\
  0 <= Spinlock.total_interrupts k < 2 ^ 32.
Proof.
  intros Hreach.
  destruct (spin_wf_reachable k Hreach)
    as (Hh & Ht & Hlen & Htot).
  rewrite Hlen.
  unfold KBUF_SIZE in *. repeat split; try apply Hh; try apply Ht;
    try apply Htot; lia.
Qed.

Lemma spinlock_cursors_stay_inside_the_buffer_witness :
  let k := Spinlock.interrupts 300 0 0 Spinlock.module_init in
  0 <= Spinlock.k_head k < KBUF_SIZE /\ 0 <= Spinlock.k_tail k < KBUF_SIZE.
Proof.
  intros k.
  destruct (spinlock_cursors_stay_inside_the_buffer k
              (interrupts_reachable 300 0 0)) as (_ & _ & Hh & Ht & _).
  split; [exact Hh | exact Ht].
Defined.

(** X13.  After an interrupt the spinlock buffer is never empty: the
    cursors differ and the driver's [poll] reports [POLLIN | POLLRDNORM],
    also when the buffer was full and the oldest record was evicted. *)
Theorem spinlock_interrupt_makes_the_device_readable
    (ts state : Z) (k : Spinlock.kernel) :
  Spinlock.reachable k ->
  let k' := Spinlock.gpio_isr ts state k in
  Spinlock.k_head k' <> Spinlock.k_tail k' /\
  Spinlock.dev_poll k' = Z.lor POLLIN POLLRDNORM.
Proof.
  intros Hreach k'.
  destruct (spin_wf_reachable k Hreach)
    as (Hh & Ht & _).
  assert (Hne : Spinlock.k_head k' <> Spinlock.k_tail k').
  { unfold k', Spinlock.gpio_isr, wrap32, KBUF_SIZE in *.
    cbn [Spinlock.k_head Spinlock.k_tail].
    destruct (Z.eqb_spec ((Spinlock.k_head k + 1) mod 2 ^ 32 mod 256)
                (Spinlock.k_tail k)) as [E|E]; [|done].
    rewrite E. Z.div_mod_to_equations. lia. }
  split; [done|]. unfold Spinlock.dev_poll.
  by destruct (Z.eqb_spec (Spinlock.k_head k') (Spinlock.k_tail k')).
Qed.

Lemma spinlock_interrupt_makes_the_device_readable_witness :
  let k := Spinlock.interrupts 255 0 0 Spinlock.module_init in
  Spinlock.dev_poll (Spinlock.gpio_isr 0 0 k) = 65.
Proof.
  intros k.
  exact (proj2 (spinlock_interrupt_makes_the_device_readable 0 0 k
                  (interrupts_reachable 255 0 0))).
Defined.

Lemma spin_pending_length k : length (spin_pending k) = spin_occupancy k.
Proof. unfold spin_pending. by rewrite length_fmap, length_seq. Qed.

Lemma spin_pending_lookup k i :
  (i < spin_occupancy k)%nat ->
  spin_pending k !! i
  = Some (Spinlock.k_buffer k
            !!! Z.to_nat ((Spinlock.k_tail k + Z.of_nat i) mod KBUF_SIZE)).
Proof.
  intros Hi. unfold spin_pending.
  by rewrite list_lookup_fmap, lookup_seq_lt.
Qed.

Ltac mod256 :=
  unfold KBUF_SIZE, wrap32, is_u32 in *; Z.div_mod_to_equations; lia.

(** X14.  [gpio_isr] of the spinlock module appends its record to what
    the buffer holds; when the buffer already holds 255 records, the
    oldest one is dropped to make room.  The buffer never holds more than
    255. *)
Theorem spinlock_interrupt_appends_or_evicts
    (ts state : Z) (k : Spinlock.kernel) :
  Spinlock.reachable k ->
  let ev := mkEvent ts ((Spinlock.total_interrupts k + 1) mod 2 ^ 32)
              (state mod 2 ^ 32) in
  let k' := Spinlock.gpio_isr ts state k in
  (length (spin_pending k) <= 255)%nat /\
  ((length (spin_pending k) < 255)%nat ->
   spin_pending k' = spin_pending k ++ [ev]) /\
  (length (spin_pending k) = 255%nat ->
   spin_pending k' = drop 1 (spin_pending k) ++ [ev]).
Proof.
  intros Hreach ev k'.
  destruct (spin_wf_reachable k Hreach) as (Hh & Ht & Hlen & Htot).
  rewrite spin_pending_length.
  destruct k as [b h t total].
  cbn [Spinlock.k_head Spinlock.k_tail Spinlock.k_buffer
       Spinlock.total_interrupts] in *.
  assert (Hocc : Z.of_nat (spin_occupancy (Spinlock.mkKernel b h t total))
                 = (h - t) mod 256).
  { unfold spin_occupancy. cbn. rewrite Z2Nat.id; [done | mod256]. }
  set (occ := spin_occupancy (Spinlock.mkKernel b h t total)) in *.
  assert (Hhb : (Z.to_nat h < length b)%nat) by (rewrite Hlen; mod256).
  split; [mod256|]. split.
  - intros Hroom.
    assert (Ek : k' = Spinlock.mkKernel (<[Z.to_nat h := ev]> b)
                        ((h + 1) mod 256) t ((total + 1) mod 2 ^ 32)).
    { unfold k', Spinlock.gpio_isr. cbn.
      replace (wrap32 (h + 1) mod KBUF_SIZE) with ((h + 1) mod 256) by mod256.
      destruct (Z.eqb_spec ((h + 1) mod 256) t); [mod256 | done]. }
    assert (Hocc' : spin_occupancy k' = S occ).
    { rewrite Ek. unfold spin_occupancy. cbn. mod256. }
    apply (list_eq_same_length _ _ (S occ)).
    + rewrite length_app, spin_pending_length. simpl. lia.
    + by rewrite spin_pending_length.
    + intros i x y Hi. rewrite spin_pending_lookup by lia.
      rewrite Ek. cbn [Spinlock.k_buffer Spinlock.k_tail].
      intros [= <-]. destruct (decide (i = occ)) as [->|Hne].
      * rewrite lookup_app_r by (rewrite spin_pending_length; lia).
        rewrite spin_pending_length, Nat.sub_diag. intros [= <-].
        replace (Z.to_nat ((t + Z.of_nat occ) mod KBUF_SIZE)) with (Z.to_nat h)
          by mod256.
        by apply list_lookup_total_insert_eq.
      * rewrite lookup_app_l by (rewrite spin_pending_length; lia).
        rewrite spin_pending_lookup by lia. cbn [Spinlock.k_buffer Spinlock.k_tail].
        intros [= <-]. apply list_lookup_total_insert_ne. mod256.
  - intros Hfull.
    assert (Ek : k' = Spinlock.mkKernel (<[Z.to_nat h := ev]> b)
                        ((h + 1) mod 256) ((t + 1) mod 256)
                        ((total + 1) mod 2 ^ 32)).
    { unfold k', Spinlock.gpio_isr. cbn.
      replace (wrap32 (h + 1) mod KBUF_SIZE) with ((h + 1) mod 256) by mod256.
      replace (wrap32 (t + 1) mod KBUF_SIZE) with ((t + 1) mod 256) by mod256.
      destruct (Z.eqb_spec ((h + 1) mod 256) t); [done | mod256]. }
    assert (Hocc' : spin_occupancy k' = 255%nat).
    { rewrite Ek. unfold spin_occupancy. cbn. mod256. }
    apply (list_eq_same_length _ _ 255%nat).
    + rewrite length_app, length_drop, spin_pending_length. simpl. lia.
    + by rewrite spin_pending_length.
    + intros i x y Hi. rewrite spin_pending_lookup by lia.
      rewrite Ek. cbn [Spinlock.k_buffer Spinlock.k_tail].
      intros [= <-]. destruct (decide (i = 254%nat)) as [->|Hne].
      * rewrite lookup_app_r by (rewrite length_drop, spin_pending_length; lia).
        rewrite length_drop, spin_pending_length. fold occ.
        replace (254 - (occ - 1))%nat with 0%nat by lia. intros [= <-].
        replace (Z.to_nat (((t + 1) mod 256 + Z.of_nat 254) mod KBUF_SIZE))
          with (Z.to_nat h) by mod256.
        by apply list_lookup_total_insert_eq.
      * rewrite lookup_app_l by (rewrite length_drop, spin_pending_length; lia).
        rewrite lookup_drop, spin_pending_lookup by lia.
        cbn [Spinlock.k_buffer Spinlock.k_tail]. intros [= <-].
        replace (Z.to_nat (((t + 1) mod 256 + Z.of_nat i) mod KBUF_SIZE))
          with (Z.to_nat ((t + Z.of_nat (1 + i)) mod KBUF_SIZE)) by mod256.
        apply list_lookup_total_insert_ne. mod256.
Qed.

Lemma spinlock_interrupt_appends_or_evicts_witness :
  let k := Spinlock.interrupts 255 0 0 Spinlock.module_init in
  length (spin_pending k) = 255%nat /\
  spin_pending (Spinlock.gpio_isr 7 1 k)
  = drop 1 (spin_pending k) ++ [mkEvent 7 256 1].
Proof.
  intros k.
  destruct (spinlock_interrupt_appends_or_evicts 7 1 k
              (interrupts_reachable 255 0 0)) as (_ & _ & Hfull).
  assert (Hlen : length (spin_pending k) = 255%nat) by (vm_compute; reflexivity).
  split; [exact Hlen | exact (Hfull Hlen)].
Defined.

(** X15.  [dev_read] on a non-empty spinlock buffer, with room for a
    record, takes the oldest record out: what the buffer holds afterwards
    is what it held, less its first element.  The record reaches the
    caller when [copy_to_user] succeeds; when it fails the call returns
    [-EFAULT] and the record is gone all the same.  A length below the
    record size returns [-EINVAL] and takes nothing. *)
Theorem spinlock_read_takes_the_oldest_record
    (len : Z) (copy_ok : bool) (k : Spinlock.kernel) :
  Spinlock.reachable k ->
  Spinlock.k_head k <> Spinlock.k_tail k ->
  let r := (Spinlock.dev_read len copy_ok k).1.1 in
  let data := (Spinlock.dev_read len copy_ok k).1.2 in
  let k' := (Spinlock.dev_read len copy_ok k).2 in
  (len < Spinlock.sizeof_GpioIrqEvent ->
   r = - EINVAL /\ data = None /\ k' = k) /\
  (Spinlock.sizeof_GpioIrqEvent <= len ->
   exists oldest,
     spin_pending k = oldest :: spin_pending k' /\
     Spinlock.k_head k' = Spinlock.k_head k /\
     (copy_ok = true ->
      r = Spinlock.sizeof_GpioIrqEvent /\ data = Some oldest) /\
     (copy_ok = false -> r = - EFAULT /\ data = None)).
Proof.
  intros Hreach Hne r data k'.
  destruct (spin_wf_reachable k Hreach) as (Hh & Ht & Hlen & Htot).
  unfold r, data, k', Spinlock.dev_read. split.
  - intros Hshort. destruct (Z.ltb_spec len Spinlock.sizeof_GpioIrqEvent); [done | lia].
  - intros Hroom. destruct (Z.ltb_spec len Spinlock.sizeof_GpioIrqEvent); [lia|].
    destruct k as [b h t total].
    cbn [Spinlock.k_head Spinlock.k_tail Spinlock.k_buffer
         Spinlock.total_interrupts] in *.
    set (k0 := Spinlock.mkKernel b h t total).
    set (k1 := Spinlock.mkKernel b h (wrap32 (t + 1) mod KBUF_SIZE) total).
    exists (b !!! Z.to_nat t).
    assert (Hocc : Z.of_nat (spin_occupancy k0) = (h - t) mod 256).
    { unfold spin_occupancy. cbn. rewrite Z2Nat.id; [done | mod256]. }
    assert (Hocc1 : S (spin_occupancy k1) = spin_occupancy k0).
    { unfold spin_occupancy in *. cbn in *. mod256. }
    assert (Hpend : spin_pending k0 = b !!! Z.to_nat t :: spin_pending k1).
    { apply (list_eq_same_length _ _ (spin_occupancy k0)).
      - simpl. by rewrite spin_pending_length.
      - by rewrite spin_pending_length.
      - intros i x y Hi. rewrite spin_pending_lookup by done.
        cbn [Spinlock.k_buffer Spinlock.k_tail]. intros [= <-].
        destruct i as [|i].
        + intros [= <-]. f_equal. mod256.
        + cbn [lookup list_lookup]. rewrite spin_pending_lookup by lia.
          cbn [Spinlock.k_buffer Spinlock.k_tail]. intros [= <-].
          f_equal. mod256. }
    destruct copy_ok; cbn [fst snd]; fold k0 k1;
      (split; [exact Hpend|]); (split; [done|]); split; intros; done.
Qed.

Lemma spinlock_read_takes_the_oldest_record_witness :
  let k := Spinlock.gpio_isr 9 0 (Spinlock.gpio_isr 7 1 Spinlock.module_init) in
  (Spinlock.dev_read 16 true k).1.2 = Some (mkEvent 7 1 1) /\
  spin_pending (Spinlock.dev_read 16 true k).2 = [mkEvent 9 2 0].
Proof.
  intros k.
  destruct (spinlock_read_takes_the_oldest_record 16 true k)
    as (_ & Hread).
  - unfold k. do 2 apply Spinlock.reach_isr. apply Spinlock.reach_init.
  - vm_compute. discriminate.
  - destruct Hread as (oldest & Hpend & _ & Hok & _); [vm_compute; discriminate|].
    destruct (Hok eq_refl) as (_ & Hdata).
    split; [by vm_compute | by vm_compute].
Defined.

Lemma spin_read_oldest k :
  Spinlock.reachable k ->
  Spinlock.k_head k <> Spinlock.k_tail k ->
  exists oldest,
    spin_pending k
    = oldest :: spin_pending (Spinlock.dev_read Spinlock.sizeof_GpioIrqEvent true k).2 /\
    Spinlock.dev_read Spinlock.sizeof_GpioIrqEvent true k
    = (Spinlock.sizeof_GpioIrqEvent, Some oldest,
       (Spinlock.dev_read Spinlock.sizeof_GpioIrqEvent true k).2).
Proof.
  intros Hreach Hne.
  destruct (spin_wf_reachable k Hreach) as (Hh & Ht & Hlen & Htot).
  destruct k as [b h t total].
  cbn [Spinlock.k_head Spinlock.k_tail Spinlock.k_buffer
       Spinlock.total_interrupts] in *.
  exists (b !!! Z.to_nat t). split; [|reflexivity].
  set (k0 := Spinlock.mkKernel b h t total).
  set (k1 := (Spinlock.dev_read Spinlock.sizeof_GpioIrqEvent true k0).2).
  assert (Hocc : Z.of_nat (spin_occupancy k0) = (h - t) mod 256).
  { unfold spin_occupancy. cbn. rewrite Z2Nat.id; [done | mod256]. }
  assert (Hocc1 : S (spin_occupancy k1) = spin_occupancy k0).
  { unfold spin_occupancy in *. cbn in *. mod256. }
  apply (list_eq_same_length _ _ (spin_occupancy k0)).
  - simpl. by rewrite spin_pending_length.
  - by rewrite spin_pending_length.
  - intros i x y Hi. rewrite spin_pending_lookup by done.
    cbn [Spinlock.k_buffer Spinlock.k_tail k0]. intros [= <-].
    destruct i as [|i].
    + intros [= <-]. f_equal. mod256.
    + cbn [lookup list_lookup]. rewrite spin_pending_lookup by lia.
      cbn. intros [= <-]. f_equal. mod256.
Qed.

(** X16.  One ready wake-up of the [read()] listener on a non-empty
    buffer hands the callback exactly the oldest record and takes it out
    of the buffer; nothing is written to [std::cerr]. *)
Theorem read_listener_dispatches_the_oldest_record
    {U} (cb : IrqCallback U) (strerror : Z -> string) (k : Spinlock.kernel)
    (u : U) (err : list string) :
  Spinlock.reachable k ->
  Spinlock.k_head k <> Spinlock.k_tail k ->
  exists oldest k',
    spin_pending k = oldest :: spin_pending k' /\
    read_pass cb strerror true k u err = (k', dispatch cb oldest u, err).
Proof.
  intros Hreach Hne.
  destruct (spin_read_oldest k Hreach Hne)
    as (oldest & Hpend & Hread).
  exists oldest, (Spinlock.dev_read Spinlock.sizeof_GpioIrqEvent true k).2.
  split; [done|]. unfold read_pass. rewrite Hread. reflexivity.
Qed.

Lemma read_listener_dispatches_the_oldest_record_witness :
  let k := Spinlock.gpio_isr 9 0 (Spinlock.gpio_isr 7 1 Spinlock.module_init) in
  exists k',
    read_pass (Some record_cb) example_strerror true k [] []
    = (k', [mkEvent 7 1 1], []).
Proof.
  intros k.
  destruct (read_listener_dispatches_the_oldest_record (Some record_cb)
              example_strerror k [] [])
    as (oldest & k' & Hpend & Hpass).
  - unfold k. do 2 apply Spinlock.reach_isr. apply Spinlock.reach_init.
  - vm_compute. discriminate.
  - exists k'. rewrite Hpass. vm_compute in Hpend.
    injection Hpend as <- _. reflexivity.
Defined.

(** ** The callback's queue as a list *)

Section QueueFacts.
Context {T : Type} `{Inhabited T}.
Variable Size : Z.
Hypothesis HSize : queue_size_ok Size.
Implicit Types (q : LockFreeRingBuffer T).

Lemma wrap64_slot c : wrap64 c mod Size = c mod Size.
Proof.
  destruct HSize as [Hpos Hdiv]. unfold wrap64.
  pose proof (Z.div_mod c (2 ^ 64) ltac:(lia)) as Hdm.
  assert (E : 2 ^ 64 = Size * (2 ^ 64 / Size)) by (apply Z.div_exact; lia).
  remember (c / 2 ^ 64) as Q. remember (c mod 2 ^ 64) as R.
  remember (2 ^ 64 / Size) as M.
  rewrite E in Hdm.
  replace (c mod Size) with ((R + M * Q * Size) mod Size) by (f_equal; lia).
  by rewrite Z.mod_add by lia.
Qed.

Lemma wrap64_slot_add c i : (wrap64 c + i) mod Size = (c + i) mod Size.
Proof.
  destruct HSize as [Hpos _].
  rewrite Zplus_mod, wrap64_slot, <- Zplus_mod. done.
Qed.

Lemma queue_slots_apart c i j :
  0 <= i < j -> j < i + Size ->
  Z.to_nat ((c + j) mod Size) <> Z.to_nat ((c + i) mod Size).
Proof.
  destruct HSize as [Hpos _]. intros Hij Hj E.
  apply Z2Nat.inj in E; try (apply Z.mod_pos_bound; lia).
  pose proof (Z.div_mod (c + j) Size ltac:(lia)) as E1.
  pose proof (Z.div_mod (c + i) Size ltac:(lia)) as E2.
  rewrite E in E1.
  assert (Ed : j - i = Size * ((c + j) / Size - (c + i) / Size)) by lia.
  remember ((c + j) / Size - (c + i) / Size) as d.
  destruct (Z_lt_le_dec d 1).
  - assert (Size * d <= 0) by (apply Z.mul_nonneg_nonpos; lia). lia.
  - assert (Size * 1 <= Size * d) by (apply Z.mul_le_mono_nonneg_l; lia). lia.
Qed.

Lemma queue_slot_bound q c :
  queue_wf Size q -> (Z.to_nat (c mod Size) < length (m_data q))%nat.
Proof.
  destruct HSize as [Hpos _]. intros (_ & _ & ->).
  pose proof (Z.mod_pos_bound c Size). lia.
Qed.

Lemma queue_contents_length q :
  length (queue_contents Size q) = queue_occupancy q.
Proof. unfold queue_contents. by rewrite length_fmap, length_seq. Qed.

Lemma queue_contents_lookup q i :
  (i < queue_occupancy q)%nat ->
  queue_contents Size q !! i
  = Some (m_data q !!! Z.to_nat ((m_tail q + Z.of_nat i) mod Size)).
Proof.
  intros Hi. unfold queue_contents.
  by rewrite list_lookup_fmap, lookup_seq_lt.
Qed.

Lemma queue_occupancy_Z q :
  Z.of_nat (queue_occupancy q) = (m_head q - m_tail q) mod 2 ^ 64.
Proof.
  unfold queue_occupancy, wrap64. rewrite Z2Nat.id; [done|].
  apply Z.mod_pos_bound. lia.
Qed.

Lemma queue_push_ok q item :
  queue_inv Size q -> (Z.of_nat (queue_occupancy q) < Size) ->
  let q' := (push Size item q).2 in
  (push Size item q).1 = true /\
  queue_inv Size q' /\
  queue_contents Size q' = queue_contents Size q ++ [item].
Proof.
  destruct HSize as [Hpos Hdiv].
  intros ((Hh & Ht & Hlen) & Hocc) Hroom q'.
  pose proof (queue_occupancy_Z q) as HoccZ.
  assert (Epush : push Size item q
          = (true, mkQueue (<[Z.to_nat (m_head q mod Size) := item]> (m_data q))
                     (wrap64 (m_head q + 1)) (m_tail q))).
  { unfold push, wrap64.
    destruct (Z.leb_spec Size ((m_head q - m_tail q) mod 2 ^ 64)); [lia | done]. }
  unfold q'. rewrite Epush. cbn [fst snd].
  set (q1 := mkQueue _ _ _).
  assert (Hocc1 : queue_occupancy q1 = S (queue_occupancy q)).
  { apply Nat2Z.inj. rewrite Nat2Z.inj_succ, !queue_occupancy_Z.
    unfold q1, wrap64, is_u64 in *. cbn [m_head m_tail].
    rewrite HoccZ in Hroom. Z.div_mod_to_equations. lia. }
  assert (Hslot : m_head q mod Size
                  = (m_tail q + Z.of_nat (queue_occupancy q)) mod Size).
  { rewrite <- (wrap64_slot (m_tail q + _)). f_equal.
    rewrite HoccZ. unfold wrap64, is_u64 in *. Z.div_mod_to_equations. lia. }
  split; [done|]. split.
  - split.
    + unfold queue_wf, q1. cbn [m_head m_tail m_data]. rewrite length_insert.
      split; [|done]. unfold is_u64, wrap64. apply Z.mod_pos_bound. lia.
    + rewrite Hocc1. lia.
  - apply (list_eq_same_length _ _ (S (queue_occupancy q))).
    + rewrite length_app, queue_contents_length. simpl. lia.
    + by rewrite queue_contents_length.
    + intros i x y Hi. rewrite queue_contents_lookup by lia.
      unfold q1. cbn [m_data m_tail]. intros [= <-].
      destruct (decide (i = queue_occupancy q)) as [->|Hne].
      * rewrite lookup_app_r by (rewrite queue_contents_length; lia).
        rewrite queue_contents_length, Nat.sub_diag. intros [= <-].
        rewrite <- Hslot. apply list_lookup_total_insert_eq.
        rewrite Hlen. pose proof (Z.mod_pos_bound (m_head q) Size). lia.
      * rewrite lookup_app_l by (rewrite queue_contents_length; lia).
        rewrite queue_contents_lookup by lia. intros [= <-].
        apply list_lookup_total_insert_ne. rewrite Hslot.
        apply queue_slots_apart; lia.
Qed.

Lemma queue_pop_ok q item :
  queue_inv Size q -> m_tail q <> m_head q ->
  let q' := (pop Size item q).2 in
  (pop Size item q).1.1 = true /\
  queue_inv Size q' /\
  queue_contents Size q = (pop Size item q).1.2 :: queue_contents Size q'.
Proof.
  destruct HSize as [Hpos Hdiv].
  intros ((Hh & Ht & Hlen) & Hocc) Hne q'.
  pose proof (queue_occupancy_Z q) as HoccZ.
  assert (Epop : pop Size item q
          = (true, m_data q !!! Z.to_nat (m_tail q mod Size),
             mkQueue (m_data q) (m_head q) (wrap64 (m_tail q + 1)))).
  { unfold pop. by destruct (Z.eqb_spec (m_tail q) (m_head q)). }
  unfold q'. rewrite Epop. cbn [fst snd].
  set (q1 := mkQueue _ _ _).
  assert (Hocc1 : S (queue_occupancy q1) = queue_occupancy q).
  { apply Nat2Z.inj. rewrite Nat2Z.inj_succ, !queue_occupancy_Z.
    unfold q1, wrap64, is_u64 in *. cbn [m_head m_tail].
    Z.div_mod_to_equations. lia. }
  split; [done|]. split.
  - split.
    + unfold queue_wf, q1. cbn [m_head m_tail m_data].
      split; [done|]. split; [|done]. unfold is_u64, wrap64.
      apply Z.mod_pos_bound. lia.
    + lia.
  - apply (list_eq_same_length _ _ (queue_occupancy q)).
    + simpl. by rewrite queue_contents_length.
    + by rewrite queue_contents_length.
    + intros i x y Hi. rewrite queue_contents_lookup by done. intros [= <-].
      destruct i as [|i].
      * intros [= <-]. do 2 f_equal. f_equal. lia.
      * cbn [lookup list_lookup]. rewrite queue_contents_lookup by lia.
        unfold q1. cbn [m_data m_tail]. intros [= <-]. do 2 f_equal.
        rewrite wrap64_slot_add. f_equal. lia.
Qed.

End QueueFacts.

Lemma queue_push_full {T} `{Inhabited T} Size (q : LockFreeRingBuffer T) item :
  Size <= Z.of_nat (queue_occupancy q) -> push Size item q = (false, q).
Proof.
  intros Hfull. unfold push. pose proof (queue_occupancy_Z q) as E.
  unfold wrap64.
  destruct (Z.leb_spec Size ((m_head q - m_tail q) mod 2 ^ 64)); [done | lia].
Qed.

(** X17.  Seen as the list of what it holds, oldest first, the queue
    behind the callback grows at the back: a [push] succeeds exactly when
    fewer than [Size] items are held and then appends the item; a [push]
    on a full queue changes nothing.  The bound of [Size] items is kept. *)
Theorem queue_push_appends_at_the_back
    {T} `{Inhabited T} (Size : Z) (q : LockFreeRingBuffer T) (item : T) :
  queue_size_ok Size -> queue_inv Size q ->
  let ok := (push Size item q).1 in
  let q' := (push Size item q).2 in
  queue_inv Size q' /\
  (ok = true <-> Z.of_nat (length (queue_contents Size q)) < Size) /\
  (ok = true -> queue_contents Size q' = queue_contents Size q ++ [item]) /\
  (ok = false ->
   q' = q /\ Z.of_nat (length (queue_contents Size q)) = Size).
Proof.
  intros HSize Hinv ok q'. rewrite queue_contents_length.
  destruct (Z_lt_le_dec (Z.of_nat (queue_occupancy q)) Size) as [Hroom|Hfull].
  - destruct (queue_push_ok Size HSize q item Hinv Hroom) as (Hok & Hinv' & Hc).
    fold ok q' in Hok, Hinv', Hc. rewrite Hok.
    split; [done|]. split; [tauto|]. split; [done | discriminate].
  - unfold ok, q'. rewrite (queue_push_full Size q item Hfull). cbn [fst snd].
    destruct Hinv as [Hwf Hocc].
    split; [done|]. split; [split; [discriminate | lia]|].
    split; [discriminate|]. intros _. split; [done | lia].
Qed.

Lemma queue_push_appends_at_the_back_witness :
  queue_contents 4 (push 4 9 (mkQueue [1; 2; 3; 4] 5 2)).2 = [3; 4; 1; 9].
Proof.
  destruct (queue_push_appends_at_the_back 4 (mkQueue [1; 2; 3; 4] 5 2) 9)
    as (_ & _ & Happ & _).
  - repeat split; vm_compute; congruence.
  - repeat split; vm_compute; congruence.
  - rewrite Happ; reflexivity.
Defined.

(** X18.  A [pop] fails exactly when the queue holds nothing, and then
    leaves the caller's item and the queue alone; otherwise it returns the
    oldest item held and the rest stays, in order. *)
Theorem queue_pop_takes_from_the_front
    {T} `{Inhabited T} (Size : Z) (q : LockFreeRingBuffer T) (item : T) :
  queue_size_ok Size -> queue_inv Size q ->
  let ok := (pop Size item q).1.1 in
  let x := (pop Size item q).1.2 in
  let q' := (pop Size item q).2 in
  queue_inv Size q' /\
  (ok = false <-> queue_contents Size q = []) /\
  (ok = true -> queue_contents Size q = x :: queue_contents Size q') /\
  (ok = false -> x = item /\ q' = q).
Proof.
  intros HSize Hinv ok x q'.
  destruct (decide (m_tail q = m_head q)) as [Heq|Hne].
  - assert (Epop : pop Size item q = (false, item, q)).
    { unfold pop. by rewrite Heq, Z.eqb_refl. }
    unfold ok, x, q'. rewrite Epop. cbn [fst snd].
    split; [done|]. split; [|split; [discriminate | done]].
    split; [|done]. intros _. unfold queue_contents, queue_occupancy, wrap64.
    by rewrite Heq, Z.sub_diag.
  - destruct (queue_pop_ok Size HSize q item Hinv Hne) as (Hok & Hinv' & Hc).
    fold ok x q' in Hok, Hinv', Hc. rewrite Hok.
    split; [done|]. split; [|split; [done | discriminate]].
    split; [discriminate|]. rewrite Hc. discriminate.
Qed.

Lemma queue_pop_takes_from_the_front_witness :
  pop 4 0 (mkQueue [1; 2; 3; 4] 5 2) = (true, 3, mkQueue [1; 2; 3; 4] 5 3) /\
  queue_contents 4 (mkQueue [1; 2; 3; 4] 5 2) = [3; 4; 1].
Proof.
  destruct (queue_pop_takes_from_the_front 4 (mkQueue [1; 2; 3; 4] 5 2) 0)
    as (_ & _ & Hfront & _).
  - repeat split; vm_compute; congruence.
  - repeat split; vm_compute; congruence.
  - split; [reflexivity|]. rewrite Hfront; reflexivity.
Defined.

Lemma g_event_buffer_size_ok : queue_size_ok g_event_buffer_size.
Proof. repeat split; vm_compute; congruence. Qed.

(** X19.  The callback of [Basic_usage/main.cpp], run over the records of
    a pass, leaves in [g_event_buffer] what was there followed by the new
    records in order, cut off at 1024 items: the records that no longer
    fit are the newest ones, and they are dropped. *)
Theorem callback_queue_keeps_the_first_that_fit
    (records : list GpioIrqEvent) (q : LockFreeRingBuffer GpioIrqEvent) :
  queue_inv g_event_buffer_size q ->
  let q' := feed (Some my_irq_callback) records q in
  queue_inv g_event_buffer_size q' /\
  queue_contents g_event_buffer_size q'
  = take 1024 (queue_contents g_event_buffer_size q ++ records).
Proof.
  revert q. induction records as [|e records IH]; intros q Hinv q'.
  - split; [done|]. unfold q'. cbn [feed fold_left].
    rewrite app_nil_r, take_ge; [done|].
    rewrite queue_contents_length. destruct Hinv as [_ Hocc].
    unfold g_event_buffer_size in Hocc. lia.
  - unfold q'.
    change (feed (Some my_irq_callback) (e :: records) q)
      with (feed (Some my_irq_callback) records (my_irq_callback e q)).
    destruct (Z_lt_le_dec (Z.of_nat (queue_occupancy q)) g_event_buffer_size)
      as [Hroom|Hfull].
    + destruct (queue_push_ok g_event_buffer_size g_event_buffer_size_ok q e
                  Hinv Hroom) as (_ & Hinv1 & Happ).
      fold (my_irq_callback e q) in Hinv1, Happ.
      destruct (IH _ Hinv1) as (Hinv2 & Hc2).
      split; [done|]. by rewrite Hc2, Happ, <- app_assoc.
    + assert (Eq : my_irq_callback e q = q).
      { unfold my_irq_callback. by rewrite queue_push_full. }
      rewrite Eq. destruct (IH _ Hinv) as (Hinv2 & Hc2).
      split; [done|]. rewrite Hc2.
      pose proof (queue_contents_length g_event_buffer_size q) as Hlen.
      unfold g_event_buffer_size in *.
      rewrite !take_app_le; [done | lia | lia].
Qed.

Lemma callback_queue_keeps_the_first_that_fit_witness :
  queue_contents g_event_buffer_size
    (feed (Some my_irq_callback) [mkEvent 7 1 1; mkEvent 9 2 0]
       (queue_new g_event_buffer_size))
  = [mkEvent 7 1 1; mkEvent 9 2 0].
Proof.
  destruct (callback_queue_keeps_the_first_that_fit
              [mkEvent 7 1 1; mkEvent 9 2 0] (queue_new g_event_buffer_size))
    as (_ & Hc).
  - repeat split; vm_compute; congruence.
  - rewrite Hc. vm_compute. reflexivity.
Defined.

(** ** Bursts and passes, one after the other *)

Lemma sys_run_app {U} (cb : IrqCallback U) a1 a2 s :
  sys_run cb (a1 ++ a2) s
  = match sys_run cb a1 s with
    | Some s1 => sys_run cb a2 s1
    | None => None
    end.
Proof.
  unfold sys_run. rewrite fold_left_app.
  destruct (fold_left _ a1 (Some s)) as [s1|]; [done|].
  induction a2; [done | simpl; auto].
Qed.

Lemma sys_run_interrupts {U} (cb : IrqCallback U) burst (s : system U) :
  sys_run cb ((fun i => Interrupt i.1 i.2) <$> burst) s
  = Some (mkSystem (Mapped.publish_all burst (sys_kernel s))
            (sys_local_tail s) (sys_user s)).
Proof.
  revert s. induction burst as [|x burst IH]; intros s.
  - by destruct s.
  - change (sys_run cb ((fun i => Interrupt i.1 i.2) <$> x :: burst) s)
      with (sys_run cb ((fun i => Interrupt i.1 i.2) <$> burst)
              (mkSystem (Mapped.gpio_isr x.1 x.2 (sys_kernel s))
                 (sys_local_tail s) (sys_user s))).
    by rewrite IH.
Qed.

Lemma published_all_app total l1 l2 :
  Mapped.published_all total (l1 ++ l2)
  = Mapped.published_all total l1
    ++ Mapped.published_all (wrap32 (total + Z.of_nat (length l1))) l2.
Proof.
  unfold Mapped.published_all. rewrite imap_app. f_equal.
  apply imap_ext. intros i x _. unfold Mapped.published. f_equal.
  rewrite <- (Z.add_assoc (wrap32 _)), wrap32_succ. f_equal. lia.
Qed.

Lemma feed_app {U} (cb : IrqCallback U) es1 es2 u :
  feed cb (es1 ++ es2) u = feed cb es2 (feed cb es1 u).
Proof. unfold feed. by rewrite fold_left_app. Qed.

Lemma burst_then_pass_spec {U} (cb : IrqCallback U) fuel burst (s : system U) :
  sys_caught_up s ->
  Z.of_nat (length burst) <= KBUF_SIZE -> (length burst <= fuel)%nat ->
  exists s',
    sys_run cb (burst_then_pass fuel burst) s = Some s' /\
    sys_caught_up s' /\
    sys_tail s' = sys_head s' /\
    Mapped.total_interrupts (sys_kernel s')
    = wrap32 (Mapped.total_interrupts (sys_kernel s) + Z.of_nat (length burst)) /\
    sys_user s'
    = feed cb (Mapped.published_all (Mapped.total_interrupts (sys_kernel s)) burst)
        (sys_user s).
Proof.
  intros ((Hh & Ht & Hlen) & Htot & Hlt) Hn Hfuel.
  unfold burst_then_pass. rewrite sys_run_app, sys_run_interrupts.
  unfold sys_run. cbn [fold_left sys_step sys_kernel sys_local_tail sys_user].
  rewrite Hlt. unfold sys_head.
  rewrite publish_then_drain by done.
  eexists. split; [reflexivity|].
  unfold sys_caught_up, sys_head, sys_tail, with_region, shared_wf.
  cbn [sys_kernel sys_local_tail sys_user Mapped.shared_buf
       Mapped.total_interrupts set_tail head tail events].
  rewrite publish_all_head, publish_all_total, publish_all_length by done.
  repeat split; try apply wrap32_range; done.
Qed.

Lemma passes_spec
    {U} (cb : IrqCallback U) (fuel : nat) (bursts : list (list (Z * Z)))
    (s : system U) :
  sys_caught_up s ->
  Forall (fun b => Z.of_nat (length b) <= KBUF_SIZE /\ (length b <= fuel)%nat)
    bursts ->
  exists s',
    sys_run cb (concat (burst_then_pass fuel <$> bursts)) s = Some s' /\
    sys_caught_up s' /\
    (sys_tail s = sys_head s \/ bursts <> [] -> sys_tail s' = sys_head s') /\
    sys_user s'
    = feed cb
        (Mapped.published_all (Mapped.total_interrupts (sys_kernel s))
           (concat bursts))
        (sys_user s).
Proof.
  revert s. induction bursts as [|b bursts IH]; intros s Hs Hall.
  - exists s. split; [reflexivity|]. split; [exact Hs|].
    split; [|reflexivity]. intros [Ht|Hne]; [exact Ht | done].
  - apply Forall_cons in Hall as [[Hn Hfuel] Hrest].
    destruct (burst_then_pass_spec cb fuel b s Hs Hn Hfuel)
      as (s1 & Hrun1 & Hs1 & Htail1 & Htot1 & Hu1).
    destruct (IH s1 Hs1 Hrest) as (s' & Hrun & Hs' & Htail' & Hu').
    exists s'. split; [|split; [done|split]].
    + rewrite fmap_cons. cbn [concat]. by rewrite sys_run_app, Hrun1.
    + intros _. apply Htail'. by left.
    + cbn [concat]. by rewrite published_all_app, feed_app, <- Hu1, <- Htot1.
Qed.

(** X20.  However the interrupts are grouped into bursts of at most
    [KBUF_SIZE], with one pass of the listener after each burst, the
    callback is invoked once for every record published, in the order of
    publication, across all passes: the passes neither lose a record nor
    deliver one twice.  After each pass (after the first [n] bursts, for
    every [n] from 1 on) the listener has caught up: its local tail and
    the shared tail both equal the head. *)
Theorem passes_deliver_every_record_once
    {U} (cb : IrqCallback U) (fuel : nat) (bursts : list (list (Z * Z)))
    (s : system U) :
  sys_caught_up s ->
  Forall (fun b => Z.of_nat (length b) <= KBUF_SIZE /\ (length b <= fuel)%nat)
    bursts ->
  (exists s',
      sys_run cb (concat (burst_then_pass fuel <$> bursts)) s = Some s' /\
      sys_caught_up s' /\
      (sys_tail s = sys_head s \/ bursts <> [] -> sys_tail s' = sys_head s') /\
      sys_user s'
      = feed cb
          (Mapped.published_all (Mapped.total_interrupts (sys_kernel s))
             (concat bursts))
          (sys_user s)) /\
  (forall n, (0 < n <= length bursts)%nat ->
     exists sn,
       sys_run cb (concat (burst_then_pass fuel <$> take n bursts)) s = Some sn /\
       sys_local_tail sn = sys_head sn /\
       sys_tail sn = sys_head sn /\
       sys_user sn
       = feed cb
           (Mapped.published_all (Mapped.total_interrupts (sys_kernel s))
              (concat (take n bursts)))
           (sys_user s)).
Proof.
  intros Hs Hall. split; [by apply passes_spec|].
  intros n Hn.
  assert (Hpre : Forall (fun b => Z.of_nat (length b) <= KBUF_SIZE /\
                                  (length b <= fuel)%nat) (take n bursts))
    by (by apply Forall_take).
  destruct (passes_spec cb fuel (take n bursts) s Hs Hpre)
    as (sn & Hrun & (_ & _ & Hlt) & Htail & Hu).
  exists sn. split; [done|]. split; [done|]. split; [|done].
  apply Htail. right. destruct bursts; [simpl in Hn; lia|].
  destruct n; [lia | done].
Qed.

Lemma passes_deliver_every_record_once_witness :
  exists s',
    sys_run (Some record_cb)
      (concat (burst_then_pass 10 <$> [ten_inputs; five_inputs]))
      (mkSystem Mapped.rpi_fast_irq_init 0 []) = Some s' /\
    sys_tail s' = sys_head s' /\
    event_counter <$> sys_user s'
    = [1; 2; 3; 4; 5; 6; 7; 8; 9; 10; 11; 12; 13; 14; 15].
Proof.
  destruct (passes_deliver_every_record_once (Some record_cb) 10
              [ten_inputs; five_inputs]
              (mkSystem Mapped.rpi_fast_irq_init 0 []))
    as ((s' & Hrun & _ & Htail & Hu) & _).
  - repeat split; vm_compute; congruence.
  - repeat constructor; vm_compute; congruence || lia.
  - exists s'. split; [exact Hrun|]. split.
    + apply Htail. right. discriminate.
    + rewrite Hu. vm_compute. reflexivity.
Defined.
